(** * Fotoweb: the image cache layer of [web_fotografo.py]

    A shallow embedding of the content hasher, the transcoder, the cache
    resolver, the batch scheduler, the gallery lister and the pagination
    state of the portfolio page, with the properties of the written
    specification stated over it.

    Python [str] values are modelled as [string] (a character is a code
    point below 256); file contents as [list byte]; Python integers as
    [Z].  Paths follow the POSIX rules of [os.path].  The file system,
    the clock and the [st.cache_data] memo tables form an explicit
    [World] that every operation threads through; exceptions are an
    explicit [outcome].  Pillow, [hashlib] and the interpreter's string
    hash are the environment: MD5 is written out, the rest is a record
    of functions [Env] the program is parameterised by. *)

From Stdlib Require Import ZArith List Strings.String Strings.Ascii Strings.Byte Lia Bool.
From stdpp Require Import gmap strings list fin_maps sorting.
Import ListNotations.

Local Open Scope string_scope.
Local Open Scope Z_scope.

(** ** hashlib.md5 (RFC 1321) *)

Module MD5.

Definition mask32 (x : Z) : Z := Z.land x 4294967295.

Definition add32 (x y : Z) : Z := mask32 (x + y).

Definition not32 (x : Z) : Z := Z.lxor x 4294967295.

Definition rotl32 (x : Z) (c : Z) : Z :=
  mask32 (Z.lor (Z.shiftl x c) (Z.shiftr x (32 - c))).

Definition K : list Z :=
  [ 3614090360; 3905402710; 606105819; 3250441966;
    4118548399; 1200080426; 2821735955; 4249261313;
    1770035416; 2336552879; 4294925233; 2304563134;
    1804603682; 4254626195; 2792965006; 1236535329;
    4129170786; 3225465664; 643717713; 3921069994;
    3593408605; 38016083; 3634488961; 3889429448;
    568446438; 3275163606; 4107603335; 1163531501;
    2850285829; 4243563512; 1735328473; 2368359562;
    4294588738; 2272392833; 1839030562; 4259657740;
    2763975236; 1272893353; 4139469664; 3200236656;
    681279174; 3936430074; 3572445317; 76029189;
    3654602809; 3873151461; 530742520; 3299628645;
    4096336452; 1126891415; 2878612391; 4237533241;
    1700485571; 2399980690; 4293915773; 2240044497;
    1873313359; 4264355552; 2734768916; 1309151649;
    4149444226; 3174756917; 718787259; 3951481745 ].

Definition S : list Z :=
  [ 7; 12; 17; 22; 7; 12; 17; 22; 7; 12; 17; 22; 7; 12; 17; 22;
    5; 9; 14; 20; 5; 9; 14; 20; 5; 9; 14; 20; 5; 9; 14; 20;
    4; 11; 16; 23; 4; 11; 16; 23; 4; 11; 16; 23; 4; 11; 16; 23;
    6; 10; 15; 21; 6; 10; 15; 21; 6; 10; 15; 21; 6; 10; 15; 21 ].

(** Little-endian decoding of four bytes into a 32-bit word. *)
Definition word_of_bytes (bs : list Z) : Z :=
  nth 0 bs 0 + 256 * nth 1 bs 0 + 65536 * nth 2 bs 0 + 16777216 * nth 3 bs 0.

(** Little-endian encoding of the low [n] bytes of [x]. *)
Fixpoint le_bytes (n : nat) (x : Z) : list Z :=
  match n with
  | O => []
  | Datatypes.S n' => (x mod 256) :: le_bytes n' (x / 256)
  end.

Fixpoint words (n : nat) (bs : list Z) : list Z :=
  match n with
  | O => []
  | Datatypes.S n' => word_of_bytes (firstn 4 bs) :: words n' (skipn 4 bs)
  end.

(** Message padding: a 1 bit, zeros up to 56 mod 64, the bit length on
    eight bytes. *)
Definition pad (msg : list Z) : list Z :=
  let len := Z.of_nat (List.length msg) in
  let zeros := Z.to_nat ((55 - len) mod 64) in
  msg ++ [128] ++ repeat 0 zeros ++ le_bytes 8 ((8 * len) mod 18446744073709551616).

Definition round (M : list Z) (st : Z * Z * Z * Z) (i : nat) : Z * Z * Z * Z :=
  let '(A, B, C, D) := st in
  let iz := Z.of_nat i in
  let '(F, g) :=
    if iz <? 16 then (Z.lor (Z.land B C) (Z.land (not32 B) D), iz)
    else if iz <? 32 then (Z.lor (Z.land D B) (Z.land (not32 D) C), (5 * iz + 1) mod 16)
    else if iz <? 48 then (Z.lxor (Z.lxor B C) D, (3 * iz + 5) mod 16)
    else (Z.lxor C (Z.lor B (not32 D)), (7 * iz) mod 16) in
  let F' := add32 (add32 (add32 F A) (nth i K 0)) (nth (Z.to_nat g) M 0) in
  (D, add32 B (rotl32 F' (nth i S 0)), B, C).

Definition process_chunk (st : Z * Z * Z * Z) (chunk : list Z) : Z * Z * Z * Z :=
  let M := words 16 chunk in
  let '(A, B, C, D) := fold_left (round M) (seq 0 64) st in
  let '(a0, b0, c0, d0) := st in
  (add32 a0 A, add32 b0 B, add32 c0 C, add32 d0 D).

Fixpoint chunks (n : nat) (bs : list Z) : list (list Z) :=
  match n with
  | O => []
  | Datatypes.S n' => firstn 64 bs :: chunks n' (skipn 64 bs)
  end.

Definition digest (data : list byte) : list Z :=
  let msg := pad (map (fun b => Z.of_N (Byte.to_N b)) data) in
  let '(a0, b0, c0, d0) :=
    fold_left process_chunk (chunks (Nat.div (List.length msg) 64) msg)
      (1732584193, 4023233417, 2562383102, 271733878) in
  le_bytes 4 a0 ++ le_bytes 4 b0 ++ le_bytes 4 c0 ++ le_bytes 4 d0.

Definition hex_digit (d : Z) : ascii :=
  nth (Z.to_nat d)
    (list_ascii_of_string "0123456789abcdef") "0"%char.

Fixpoint hex_of_bytes (bs : list Z) : string :=
  match bs with
  | [] => EmptyString
  | b :: rest => String (hex_digit (b / 16)) (String (hex_digit (b mod 16)) (hex_of_bytes rest))
  end.

(** [hashlib.md5(data).hexdigest()] *)
Definition hexdigest (data : list byte) : string := hex_of_bytes (digest data).

End MD5.

(** ** Python built-ins used by the hasher *)

(** [str(n)] for a Python integer: decimal digits, a minus sign when
    negative. *)
Definition digit_char (d : Z) : ascii := ascii_of_N (48 + Z.to_N d).

Fixpoint decimal_digits (fuel : nat) (n : Z) (acc : string) : string :=
  match fuel with
  | O => acc
  | S fuel' =>
      let acc' := String (digit_char (n mod 10)) acc in
      if n / 10 =? 0 then acc' else decimal_digits fuel' (n / 10) acc'
  end.

Definition str_of_int (n : Z) : string :=
  let m := Z.abs n in
  let body := decimal_digits (S (Z.to_nat (Z.log2 m))) m EmptyString in
  if n <? 0 then String "-"%char body else body.

(** The range of [Py_hash_t] on a 64-bit build: [hash()] returns a signed
    64-bit integer, and CPython reserves -1 as its error value, returning
    -2 in its place. *)
Definition to_Py_hash_t (h : Z) : Z :=
  let s := (h + 9223372036854775808) mod 18446744073709551616 - 9223372036854775808 in
  if s =? -1 then -2 else s.


(** ** Python string methods *)

Definition lower_char (c : ascii) : ascii :=
  let n := N_of_ascii c in
  if ((65 <=? n) && (n <=? 90))%N then ascii_of_N (n + 32) else c.

Definition upper_char (c : ascii) : ascii :=
  let n := N_of_ascii c in
  if ((97 <=? n) && (n <=? 122))%N then ascii_of_N (n - 32) else c.

Fixpoint map_chars (f : ascii -> ascii) (s : string) : string :=
  match s with
  | EmptyString => EmptyString
  | String c rest => String (f c) (map_chars f rest)
  end.

(** [s.lower()] and [s.upper()].  Only A-Z / a-z are mapped: the program
    uses the results for comparisons against ASCII literals only, and no
    other character has a letter of those literals as its lower or upper
    case. *)
Definition lower (s : string) : string := map_chars lower_char s.
Definition upper (s : string) : string := map_chars upper_char s.

(** [s.replace(a, b)] for single characters. *)
Definition replace_char (a b : ascii) (s : string) : string :=
  map_chars (fun c => if Ascii.eqb c a then b else c) s.

(** [s.startswith(p)] and [s.endswith(p)] *)
Definition startswith (s p : string) : bool := String.prefix p s.

Definition endswith (s p : string) : bool :=
  (String.length p <=? String.length s)%nat &&
  String.eqb (String.substring (String.length s - String.length p) (String.length p) s) p.

(** [os.path.join(a, b)] with the POSIX separator. *)
Definition os_path_join (a b : string) : string :=
  if startswith b "/" then b
  else if String.eqb a "" || endswith a "/" then a +:+ b
  else a +:+ "/" +:+ b.

(** ** Exceptions and outcomes *)

Inductive exn : Type :=
  | OSError
  | ValueError
  | TimeoutError
  | UnidentifiedImageError
  | RuntimeError
  | KeyboardInterrupt
  | SystemExit.

(** [isinstance(e, Exception)]: the last two derive from [BaseException]
    only, so [except Exception] lets them through while a bare [except:]
    catches them. *)
Definition is_Exception (e : exn) : bool :=
  match e with
  | KeyboardInterrupt | SystemExit => false
  | _ => true
  end.

Inductive outcome (A : Type) : Type :=
  | Ret (a : A)
  | Raise (e : exn).
Arguments Ret {A} a.
Arguments Raise {A} e.

(** ** Pillow and the interpreter, as the environment of the program *)

Record Image : Type := {
  mode : string;
  size : Z * Z;
  pixels : list byte
}.

Record SaveKwargs : Type := {
  kw_format : string;
  kw_quality : Z;
  kw_optimize : bool;
  kw_method : option Z
}.

(** The library calls whose results the program only passes along. *)
Record Env : Type := {
  (** [hash(s)] for a [str], before the cast to [Py_hash_t]; salted per
      process. *)
  str_hash : string -> Z;
  (** [Image.open] on the bytes of a file *)
  Image_open : list byte -> outcome Image;
  (** [img.convert(mode)] *)
  Image_convert : Image -> string -> outcome Image;
  (** [img.thumbnail(size, Image.Resampling.LANCZOS)]; in place in
      Python, here the image after the call *)
  Image_thumbnail : Image -> Z * Z -> outcome Image;
  (** the encoder behind [img.save] *)
  Image_encode : Image -> SaveKwargs -> outcome (list byte)
}.

(** How a write to a destination goes wrong, when it does: the
    environment refuses it and nothing is written, or it is interrupted
    and [leftover] is what stays at the destination.  Whether anything
    stays is up to the library and the operating system; the program
    itself never deletes a destination. *)
Inductive SaveFault : Type :=
  | Refused (e : exn)
  | Interrupted (e : exn) (leftover : list byte).

(** ** The world: file system, clock, memo tables *)

Record World : Type := {
  (** regular files and their bytes *)
  files : gmap string (list byte);
  (** paths that exist but cannot be opened for reading *)
  unreadable : gset string;
  (** directories and their entries, as [os.listdir] gives them *)
  directories : gmap string (list string);
  (** destinations at which [img.save] fails, and how *)
  save_faults : gmap string SaveFault;
  (** [time.time()], in seconds *)
  now : Z;
  (** the tables of the four [st.cache_data] decorators: value and
      insertion time per argument *)
  hash_cache : gmap string (string * Z);
  thumbnail_cache : gmap string (string * Z);
  preview_cache : gmap string (string * Z);
  gallery_cache : gmap string (list string * Z);
  (** ghost trace of the calls of [optimize_image_for_web]:
      source, destination, returned flag *)
  transcodes : list (string * string * bool)
}.

Definition set_files (f : gmap string (list byte)) (w : World) : World :=
  {| files := f; unreadable := unreadable w; directories := directories w;
     save_faults := save_faults w; now := now w; hash_cache := hash_cache w;
     thumbnail_cache := thumbnail_cache w; preview_cache := preview_cache w;
     gallery_cache := gallery_cache w; transcodes := transcodes w |}.

Definition set_now (t : Z) (w : World) : World :=
  {| files := files w; unreadable := unreadable w; directories := directories w;
     save_faults := save_faults w; now := t; hash_cache := hash_cache w;
     thumbnail_cache := thumbnail_cache w; preview_cache := preview_cache w;
     gallery_cache := gallery_cache w; transcodes := transcodes w |}.

Definition set_hash_cache (c : gmap string (string * Z)) (w : World) : World :=
  {| files := files w; unreadable := unreadable w; directories := directories w;
     save_faults := save_faults w; now := now w; hash_cache := c;
     thumbnail_cache := thumbnail_cache w; preview_cache := preview_cache w;
     gallery_cache := gallery_cache w; transcodes := transcodes w |}.

Definition set_thumbnail_cache (c : gmap string (string * Z)) (w : World) : World :=
  {| files := files w; unreadable := unreadable w; directories := directories w;
     save_faults := save_faults w; now := now w; hash_cache := hash_cache w;
     thumbnail_cache := c; preview_cache := preview_cache w;
     gallery_cache := gallery_cache w; transcodes := transcodes w |}.

Definition set_preview_cache (c : gmap string (string * Z)) (w : World) : World :=
  {| files := files w; unreadable := unreadable w; directories := directories w;
     save_faults := save_faults w; now := now w; hash_cache := hash_cache w;
     thumbnail_cache := thumbnail_cache w; preview_cache := c;
     gallery_cache := gallery_cache w; transcodes := transcodes w |}.

Definition set_gallery_cache (c : gmap string (list string * Z)) (w : World) : World :=
  {| files := files w; unreadable := unreadable w; directories := directories w;
     save_faults := save_faults w; now := now w; hash_cache := hash_cache w;
     thumbnail_cache := thumbnail_cache w; preview_cache := preview_cache w;
     gallery_cache := c; transcodes := transcodes w |}.

Definition set_transcodes (l : list (string * string * bool)) (w : World) : World :=
  {| files := files w; unreadable := unreadable w; directories := directories w;
     save_faults := save_faults w; now := now w; hash_cache := hash_cache w;
     thumbnail_cache := thumbnail_cache w; preview_cache := preview_cache w;
     gallery_cache := gallery_cache w; transcodes := l |}.

(** The clock moves between two calls; nothing else does. *)
Definition elapse (d : Z) (w : World) : World := set_now (now w + d) w.

(** ** The monad of the program: state and exceptions *)

Definition M (A : Type) : Type := World -> outcome A * World.

Definition ret {A} (a : A) : M A := fun w => (Ret a, w).

Definition raise {A} (e : exn) : M A := fun w => (Raise e, w).

Definition bind {A B} (m : M A) (k : A -> M B) : M B :=
  fun w =>
    match m w with
    | (Ret a, w') => k a w'
    | (Raise e, w') => (Raise e, w')
    end.

Notation "x <- m ;; k" := (bind m (fun x => k))
  (at level 100, m at next level, right associativity).

(** A library call that touches no state. *)
Definition lift {A} (o : outcome A) : M A := fun w => (o, w).

(** [try: body / except <class>: handler] *)
Definition try_except {A} (body : M A) (catches : exn -> bool) (handler : M A) : M A :=
  fun w =>
    match body w with
    | (Ret a, w') => (Ret a, w')
    | (Raise e, w') => if catches e then handler w' else (Raise e, w')
    end.

Definition bare_except (e : exn) : bool := true.

(** ** File system primitives *)

Definition read_file (w : World) (path : string) : option (list byte) :=
  if decide (path ∈ unreadable w) then None else files w !! path.

Definition path_exists (w : World) (path : string) : bool :=
  bool_decide (is_Some (files w !! path)) ||
  bool_decide (path ∈ unreadable w) ||
  bool_decide (is_Some (directories w !! path)).

(** [open(path, 'rb').read()] *)
Definition open_rb (path : string) : M (list byte) :=
  fun w =>
    match read_file w path with
    | Some data => (Ret data, w)
    | None => (Raise OSError, w)
    end.

(** [os.path.exists(path)]: never raises. *)
Definition os_path_exists (path : string) : M bool :=
  fun w => (Ret (path_exists w path), w).

(** [os.listdir(path)] *)
Definition os_listdir (path : string) : M (list string) :=
  fun w =>
    match directories w !! path with
    | Some entries => (Ret entries, w)
    | None => (Raise OSError, w)
    end.

(** ** st.cache_data(ttl=...) *)

(** The decorator keeps, per argument, the returned value and the time it
    was stored; an entry answers a call while it is younger than [ttl],
    otherwise the function runs and its value replaces the entry.  A
    raised exception is not stored. *)
Definition cache_data {A} (ttl : Z)
    (table : World -> gmap string (A * Z))
    (store : gmap string (A * Z) -> World -> World)
    (body : string -> M A) (arg : string) : M A :=
  fun w =>
    let run :=
      match body arg w with
      | (Ret v, w') => (Ret v, store (<[arg := (v, now w')]> (table w')) w')
      | (Raise e, w') => (Raise e, w')
      end in
    match table w !! arg with
    | Some (v, created) => if now w <? created + ttl then (Ret v, w) else run
    | None => run
    end.

(** The sources are immutable for the cache: an entry that still answers
    holds the value the function would return now. *)
Definition cache_fresh {A} (ttl : Z) (table : World -> gmap string (A * Z))
    (body : string -> M A) (arg : string) (w : World) : Prop :=
  forall v created,
    table w !! arg = Some (v, created) -> now w < created + ttl ->
    fst (body arg w) = Ret v.

(** No entry answers for [arg]: the decorated function runs its body. *)
Definition cache_miss {A} (ttl : Z) (table : World -> gmap string (A * Z))
    (arg : string) (w : World) : Prop :=
  forall v created, table w !! arg = Some (v, created) -> created + ttl <= now w.

(** ** Configuration constants *)

Definition THUMBNAIL_SIZE : Z * Z := (400, 300).
Definition PREVIEW_SIZE : Z * Z := (800, 600).
Definition THUMBNAIL_QUALITY : Z := 85.
Definition PREVIEW_QUALITY : Z := 90.
Definition IMAGES_PER_PAGE : Z := 8.
Definition CACHE_DIR : string := "cache".
Definition THUMBNAILS_DIR : string := CACHE_DIR +:+ "/thumbnails".
Definition PREVIEWS_DIR : string := CACHE_DIR +:+ "/previews".

(** ** The cache layer *)

Section CacheLayer.

Variable E : Env.

(** [hash(s)] for a [str] *)
Definition py_hash (s : string) : Z := to_Py_hash_t (str_hash E s).

(** The body of [get_image_hash]. *)
Definition get_image_hash_body (image_path : string) : M string :=
  try_except
    (data <- open_rb image_path ;;
     ret (MD5.hexdigest data))
    bare_except
    (ret (str_of_int (py_hash image_path))).

(** [@st.cache_data(ttl=3600) def get_image_hash(image_path)] *)
Definition get_image_hash : string -> M string :=
  cache_data 3600 hash_cache set_hash_cache get_image_hash_body.

(** [img.save(output_path, **save_kwargs)]: a fault of the destination
    decides first; otherwise the encoder's bytes become the file. *)
Definition Image_save (img : Image) (output_path : string) (kw : SaveKwargs) : M unit :=
  fun w =>
    match save_faults w !! output_path with
    | Some (Refused e) => (Raise e, w)
    | Some (Interrupted e leftover) =>
        (Raise e, set_files (<[output_path := leftover]> (files w)) w)
    | None =>
        match Image_encode E img kw with
        | Ret data => (Ret tt, set_files (<[output_path := data]> (files w)) w)
        | Raise e => (Raise e, w)
        end
    end.

(** Ghost instrumentation: append the call and its result to the trace. *)
Definition traced (image_path output_path : string) (m : M bool) : M bool :=
  fun w =>
    match m w with
    | (Ret b, w') =>
        (Ret b, set_transcodes (transcodes w' ++ [(image_path, output_path, b)]) w')
    | (Raise e, w') =>
        (Raise e, set_transcodes (transcodes w' ++ [(image_path, output_path, false)]) w')
    end.

(** The [try] block of [optimize_image_for_web]. *)
Definition transcode_steps (image_path output_path : string)
    (target_size : Z * Z) (quality : Z) (format : string) : M bool :=
  data <- open_rb image_path ;;
  img <- lift (Image_open E data) ;;
  img <- (if existsb (String.eqb (mode img)) ["RGBA"; "LA"; "P"]
          then lift (Image_convert E img "RGB")
          else ret img) ;;
  img <- lift (Image_thumbnail E img target_size) ;;
  let save_kwargs :=
    {| kw_format := format; kw_quality := quality; kw_optimize := true;
       kw_method := if String.eqb (upper format) "WEBP" then Some 6 else None |} in
  _ <- Image_save img output_path save_kwargs ;;
  ret true.

(** [optimize_image_for_web]: the block under [except Exception:], which
    returns False. *)
Definition optimize_image_for_web (image_path output_path : string)
    (target_size : Z * Z) (quality : Z) (format : string) : M bool :=
  traced image_path output_path
    (try_except
       (transcode_steps image_path output_path target_size quality format)
       is_Exception
       (ret false)).

(** The [try] block of [get_or_create_thumbnail]. *)
Definition thumbnail_steps (image_path : string) : M string :=
  image_hash <- get_image_hash image_path ;;
  let thumbnail_name := image_hash +:+ "_thumb.webp" in
  let thumbnail_path := os_path_join THUMBNAILS_DIR thumbnail_name in
  found <- os_path_exists thumbnail_path ;;
  if found then ret thumbnail_path
  else
    (created <- optimize_image_for_web image_path thumbnail_path
                  THUMBNAIL_SIZE THUMBNAIL_QUALITY "WebP" ;;
     if created then ret thumbnail_path else ret image_path).

(** The body of [get_or_create_thumbnail]: the block under a bare
    [except:] that returns the source path. *)
Definition get_or_create_thumbnail_body (image_path : string) : M string :=
  try_except (thumbnail_steps image_path) bare_except (ret image_path).

(** [@st.cache_data(ttl=7200) def get_or_create_thumbnail(image_path)] *)
Definition get_or_create_thumbnail : string -> M string :=
  cache_data 7200 thumbnail_cache set_thumbnail_cache get_or_create_thumbnail_body.

(** The [try] block of [get_or_create_preview]. *)
Definition preview_steps (image_path : string) : M string :=
  image_hash <- get_image_hash image_path ;;
  let preview_name := image_hash +:+ "_preview.webp" in
  let preview_path := os_path_join PREVIEWS_DIR preview_name in
  found <- os_path_exists preview_path ;;
  if found then ret preview_path
  else
    (created <- optimize_image_for_web image_path preview_path
                  PREVIEW_SIZE PREVIEW_QUALITY "WebP" ;;
     if created then ret preview_path else ret image_path).

(** The body of [get_or_create_preview]. *)
Definition get_or_create_preview_body (image_path : string) : M string :=
  try_except (preview_steps image_path) bare_except (ret image_path).

(** [@st.cache_data(ttl=7200) def get_or_create_preview(image_path)] *)
Definition get_or_create_preview : string -> M string :=
  cache_data 7200 preview_cache set_preview_cache get_or_create_preview_body.

(** *** The batch scheduler *)

(** The worker pool.  [sched] lists, in completion order, the indices of
    the submitted tasks that finish before the collecting loop asks for
    them; each runs [fn] on its argument against the shared world, one
    task after the other in that order.  A task that is not in [sched]
    has no result yet when it is awaited. *)
Fixpoint run_pool (fn : string -> M string) (args : list string) (sched : list nat)
    (done : gmap nat (outcome string)) (w : World)
    : gmap nat (outcome string) * World :=
  match sched with
  | [] => (done, w)
  | i :: rest =>
      match args !! i, done !! i with
      | Some arg, None =>
          let '(r, w') := fn arg w in
          run_pool fn args rest (<[i := r]> done) w'
      | _, _ => run_pool fn args rest done w
      end
  end.

(** A future is the task's outcome once it has one. *)
Definition Future : Type := option (outcome string).

(** [future.result(timeout=10)] *)
Definition future_result (f : Future) : outcome string :=
  match f with
  | Some r => r
  | None => Raise TimeoutError
  end.

(** The first loop: one future per path, paired with the path. *)
Definition submit_all (image_paths : list string) (done : gmap nat (outcome string))
    : list (Future * string) :=
  imap (fun i image_path => (done !! i, image_path)) image_paths.

(** The second loop, lines 143-151. *)
Fixpoint collect_results (futures : list (Future * string))
    (results : list (string * string)) : outcome (list (string * string)) :=
  match futures with
  | [] => Ret results
  | (future, original_path) :: rest =>
      match future_result future with
      | Ret thumbnail_path =>
          collect_results rest (results ++ [(original_path, thumbnail_path)])
      | Raise e =>
          if is_Exception e
          then collect_results rest (results ++ [(original_path, original_path)])
          else Raise e
      end
  end.

Definition batch_process_thumbnails_silent (image_paths : list string)
    (sched : list nat) : M (list (string * string)) :=
  fun w =>
    let '(done, w') := run_pool get_or_create_thumbnail image_paths sched ∅ w in
    (collect_results (submit_all image_paths done) [], w').

(** *** The gallery lister *)

Definition extensiones : list string :=
  ["jpg"; "jpeg"; "png"; "webp"; "JPG"; "JPEG"; "PNG"; "WEBP"].

(** Python compares [str] values by code point, position by position. *)
Definition str_le (a b : string) : Prop := String.leb a b = true.

Definition str_lt (a b : string) : Prop := String.ltb a b = true.

#[local] Instance str_le_dec (a b : string) : Decision (str_le a b).
Proof. unfold str_le. apply _. Defined.

(** [sorted(l)] on strings *)
Definition sorted (l : list string) : list string := merge_sort str_le l.

(** The body of the [for archivo in os.listdir(...)] loop. *)
Definition add_if_image (ruta_galeria : string) (imagenes_set : gset string)
    (archivo : string) : gset string :=
  if existsb (fun ext => endswith (lower archivo) ("." +:+ lower ext)) extensiones
  then
    let ruta_imagen := replace_char "\"%char "/"%char (os_path_join ruta_galeria archivo) in
    {[ ruta_imagen ]} ∪ imagenes_set
  else imagenes_set.

(** The body of [obtener_imagenes_galeria]. *)
Definition obtener_imagenes_galeria_body (nombre_galeria : string) : M (list string) :=
  let ruta_galeria := "imagenes/Galerias/" +:+ nombre_galeria in
  found <- os_path_exists ruta_galeria ;;
  if found then
    (archivos <- os_listdir ruta_galeria ;;
     let imagenes_set := fold_left (add_if_image ruta_galeria) archivos ∅ in
     ret (sorted (elements imagenes_set)))
  else ret [].

(** [@st.cache_data(ttl=1800) def obtener_imagenes_galeria(nombre_galeria)] *)
Definition obtener_imagenes_galeria : string -> M (list string) :=
  cache_data 1800 gallery_cache set_gallery_cache obtener_imagenes_galeria_body.

End CacheLayer.

(** ** Names used in the statements *)

(** The key the hasher computes from the file system as it is. *)
Definition content_key (E : Env) (w : World) (image_path : string) : string :=
  match read_file w image_path with
  | Some data => MD5.hexdigest data
  | None => str_of_int (py_hash E image_path)
  end.

(** The artifact paths the two resolvers compose from a key. *)
Definition thumbnail_artifact (key : string) : string :=
  os_path_join THUMBNAILS_DIR (key +:+ "_thumb.webp").

Definition preview_artifact (key : string) : string :=
  os_path_join PREVIEWS_DIR (key +:+ "_preview.webp").

(** The steps the two resolvers share, with the variant's artifact path,
    bounding box and quality as parameters. *)
Definition resolve_steps (E : Env) (artifact : string -> string) (box : Z * Z)
    (quality : Z) (image_path : string) : M string :=
  image_hash <- get_image_hash E image_path ;;
  found <- os_path_exists (artifact image_hash) ;;
  if found then ret (artifact image_hash)
  else
    (created <- optimize_image_for_web E image_path (artifact image_hash)
                  box quality "WebP" ;;
     if created then ret (artifact image_hash) else ret image_path).

(** The value a resolver returns for what the transcoder reported. *)
Definition after_transcode (artifact image_path : string) (ro : outcome bool)
    : outcome string :=
  match ro with
  | Ret true => Ret artifact
  | Ret false => Ret image_path
  | Raise e => Raise e
  end.

(** The shared steps under the bare [except:] of both resolvers. *)
Definition resolve_body (E : Env) (artifact : string -> string) (box : Z * Z)
    (quality : Z) (image_path : string) : M string :=
  try_except (resolve_steps E artifact box quality image_path) bare_except (ret image_path).

(** The memo table of the hasher agrees with the file system. *)
Definition hash_cache_fresh (E : Env) (image_path : string) (w : World) : Prop :=
  cache_fresh 3600 hash_cache (get_image_hash_body E) image_path w.

(** The pair the collecting loop appends for a future and its path. *)
Definition result_entry (fp : Future * string) : string * string :=
  match future_result (fst fp) with
  | Ret thumbnail_path => (snd fp, thumbnail_path)
  | Raise _ => (snd fp, snd fp)
  end.

(** What a future raises, if anything, is an [Exception]. *)
Definition catchable (fp : Future * string) : Prop :=
  forall e, future_result (fst fp) = Raise e -> is_Exception e = true.

(** Every task of the pool that has an outcome returned a value. *)
Definition all_returned (done : gmap nat (outcome string)) : Prop :=
  forall i r, done !! i = Some r -> exists v, r = Ret v.

(** The extension test in the words of the specification: the name ends
    with a dot and one of jpg, jpeg, png, webp, compared in lower case. *)
Definition has_image_extension (archivo : string) : Prop :=
  exists ext, ext ∈ ["jpg"; "jpeg"; "png"; "webp"] /\
              endswith (lower archivo) ("." +:+ ext) = true.

(** The path the lister records for an entry of the gallery directory. *)
Definition ruta_de (ruta_galeria archivo : string) : string :=
  replace_char "\"%char "/"%char (os_path_join ruta_galeria archivo).

(** ** A small environment and world for the examples *)

Definition sample_image (data : list byte) : Image :=
  {| mode := "RGBA"; size := (1200, 900); pixels := data |}.

(** An environment whose decoder accepts every non-empty file, except
    that a file starting with byte 0xff makes it leave through
    [SystemExit]. *)
Definition sample_env : Env :=
  {| str_hash := fun s => Z.of_nat (String.length s) - 20;
     Image_open := fun data =>
       match data with
       | [] => Raise UnidentifiedImageError
       | xff :: _ => Raise SystemExit
       | _ => Ret (sample_image data)
       end;
     Image_convert := fun img m =>
       Ret {| mode := m; size := size img; pixels := pixels img |};
     Image_thumbnail := fun img box =>
       Ret {| mode := mode img; size := box; pixels := pixels img |};
     Image_encode := fun img kw => Ret (x52 :: x49 :: x46 :: x46 :: pixels img) |}.

Definition foto_a : string := "imagenes/Galerias/boda/a.jpg".
Definition foto_b : string := "imagenes/Galerias/boda/b.jpg".
Definition foto_rota : string := "imagenes/Galerias/boda/rota.jpg".
Definition foto_fatal : string := "imagenes/Galerias/boda/fatal.jpg".
Definition foto_ausente : string := "imagenes/Galerias/boda/ausente.jpg".

Definition sample_world : World :=
  {| files := {[ foto_a := [x01; x02; x03];
                 foto_b := [x01; x02; x03];
                 foto_rota := [];
                 foto_fatal := [xff; x00] ]};
     unreadable := ∅;
     directories :=
       {[ "imagenes/Galerias/boda" :=
            ["b.jpg"; "notes.txt"; "a.jpg"; "photo1.jpg"; "photo1.JPG"; "rota.jpg";
             "fatal.jpg"; "c.WebP"; "jpg"] ]};
     save_faults := ∅;
     now := 1000;
     hash_cache := ∅;
     thumbnail_cache := ∅;
     preview_cache := ∅;
     gallery_cache := ∅;
     transcodes := [] |}.


(** ** Pagination state of the gallery view *)

(** The widget event delivered to one run of the script. *)
Inductive Click : Type :=
  | NoClick
  | ClickPrimera
  | ClickAnterior
  | ClickSiguiente
  | ClickUltima
  | ClickVolver.

#[local] Instance Click_eq_dec : EqDecision Click.
Proof. solve_decision. Defined.

(** What one run shows once it reaches the slice of lines 230-232. *)
Record PageView : Type := {
  current_page : Z;
  total_pages : Z;
  total_imagenes : Z;
  start_idx : Z;
  end_idx : Z;
  imagenes_pagina : list string
}.

(** [l[a:b]], with Python's treatment of negative and oversized bounds. *)
Definition py_index (len i : Z) : Z :=
  if i <? 0 then Z.max 0 (len + i) else Z.min i len.

Definition py_slice {A} (l : list A) (a b : Z) : list A :=
  let len := Z.of_nat (List.length l) in
  let lo := py_index len a in
  let hi := py_index len b in
  take (Z.to_nat (hi - lo)) (drop (Z.to_nat lo) l).

Definition page_key (nombre_galeria : string) : string := "page_" +:+ nombre_galeria.

(** [st.button(..., disabled=d)] is true in the run that follows a click
    on it, and a disabled button cannot be clicked. *)
Definition st_button (click this : Click) (disabled : bool) : bool :=
  bool_decide (click = this) && negb disabled.

(** One run of [mostrar_galeria_optimizada_final], restricted to the page
    index: [imagenes] is what [obtener_imagenes_galeria] returned in this
    run.  The result is the session state after the run, and the page
    shown unless the run stopped before (no images, or [st.rerun()]).
    The buttons of the full view do not touch the page index and count
    as [NoClick]. *)
Definition mostrar_galeria_optimizada_final (nombre_galeria : string)
    (imagenes : list string) (click : Click) (session_state : gmap string Z)
    : gmap string Z * option PageView :=
  match imagenes with
  | [] => (session_state, None)
  | _ :: _ =>
      let total_imagenes := Z.of_nat (List.length imagenes) in
      let key := page_key nombre_galeria in
      let session_state :=
        match session_state !! key with
        | None => <[key := 0]> session_state
        | Some _ => session_state
        end in
      let current_page := default 0 (session_state !! key) in
      let total_pages := (total_imagenes + IMAGES_PER_PAGE - 1) / IMAGES_PER_PAGE in
      let controls := total_pages >? 1 in
      if controls && st_button click ClickPrimera (current_page =? 0) then
        (<[key := 0]> session_state, None)
      else if controls && st_button click ClickAnterior (current_page =? 0) then
        (<[key := Z.max 0 (current_page - 1)]> session_state, None)
      else if controls && st_button click ClickSiguiente (current_page >=? total_pages - 1) then
        (<[key := Z.min (total_pages - 1) (current_page + 1)]> session_state, None)
      else if controls && st_button click ClickUltima (current_page >=? total_pages - 1) then
        (<[key := total_pages - 1]> session_state, None)
      else
        let start_idx := current_page * IMAGES_PER_PAGE in
        let end_idx := Z.min (start_idx + IMAGES_PER_PAGE) total_imagenes in
        let view :=
          {| current_page := current_page; total_pages := total_pages;
             total_imagenes := total_imagenes;
             start_idx := start_idx; end_idx := end_idx;
             imagenes_pagina := py_slice imagenes start_idx end_idx |} in
        if st_button click ClickVolver false
        then (delete key session_state, Some view)
        else (session_state, Some view)
  end.

(** A browsing session: the runs of the script, each with the listing it
    sees and the click it receives; the pages shown, in order. *)
Fixpoint browse (nombre_galeria : string) (runs : list (list string * Click))
    (session_state : gmap string Z) : list PageView :=
  match runs with
  | [] => []
  | (imagenes, click) :: rest =>
      let '(session_state', shown) :=
        mostrar_galeria_optimizada_final nombre_galeria imagenes click session_state in
      match shown with
      | Some view => view :: browse nombre_galeria rest session_state'
      | None => browse nombre_galeria rest session_state'
      end
  end.

(** The page index lies within the pages and the window is a non-empty
    part of the list. *)
Definition page_in_range (v : PageView) : Prop :=
  0 <= current_page v <= total_pages v - 1 /\
  0 <= start_idx v < end_idx v /\ end_idx v <= total_imagenes v /\
  imagenes_pagina v <> [].

(** The stored page index, when there is one, addresses a page of a list
    of [n] images. *)
Definition page_state_ok (nombre_galeria : string) (n : Z)
    (session_state : gmap string Z) : Prop :=
  forall pg, session_state !! page_key nombre_galeria = Some pg ->
             0 <= pg /\ IMAGES_PER_PAGE * pg < n.

(** From one run to the next the listing never gets shorter, and never
    shorter than [n]. *)
Fixpoint never_shrinks (n : Z) (runs : list (list string * Click)) : Prop :=
  match runs with
  | [] => True
  | (imagenes, _) :: rest =>
      n <= Z.of_nat (List.length imagenes) /\
      never_shrinks (Z.of_nat (List.length imagenes)) rest
  end.

(** A listing of [n] images for the examples. *)
Definition fotos (n : nat) : list string :=
  map (fun i => "imagenes/Galerias/boda/" +:+ str_of_int (Z.of_nat i) +:+ ".jpg") (seq 0 n).

(** ** Names used in the further statements *)

(** Two worlds have the same file system, clock and memo tables except,
    possibly, for the file at [dst]. *)
Definition same_except_file (dst : string) (w w' : World) : Prop :=
  (forall p, p <> dst -> files w' !! p = files w !! p) /\
  unreadable w' = unreadable w /\
  directories w' = directories w /\
  save_faults w' = save_faults w /\
  now w' = now w /\
  hash_cache w' = hash_cache w /\
  thumbnail_cache w' = thumbnail_cache w /\
  preview_cache w' = preview_cache w /\
  gallery_cache w' = gallery_cache w.

(** Every path that exists in [w] exists in [w'] and, when it is a file,
    holds the same bytes; the directories and the unreadable paths are
    the same. *)
Definition keeps_existing (w w' : World) : Prop :=
  (forall p, path_exists w p = true -> files w' !! p = files w !! p) /\
  unreadable w' = unreadable w /\
  directories w' = directories w.

(** The world of the examples after the thumbnail of the undecodable
    [foto_rota] was asked for, a hundred seconds later, with the file
    replaced by a decodable one. *)
Definition repaired_world : World :=
  set_files (<[foto_rota := [x01; x02]]> (files sample_world))
    (elapse 100 (snd (get_or_create_thumbnail sample_env foto_rota sample_world))).

(** [int(s)] for the decimal text of an integer. *)
Definition digit_value (c : ascii) : Z := Z.of_N (N_of_ascii c) - 48.

Fixpoint read_digits (s : string) (acc : Z) : Z :=
  match s with
  | EmptyString => acc
  | String c rest => read_digits rest (acc * 10 + digit_value c)
  end.

Definition int_of_str (s : string) : Z :=
  match s with
  | String c rest => if Ascii.eqb c "-" then - read_digits rest 0 else read_digits s 0
  | EmptyString => 0
  end.

(** The condition of the lister's loop: the name of the entry ends with
    one of the extensions. *)
Definition es_imagen (archivo : string) : bool :=
  existsb (fun ext => endswith (lower archivo) ("." +:+ lower ext)) extensiones.

(** [c in s] for a character. *)
Fixpoint contains_char (c : ascii) (s : string) : bool :=
  match s with
  | EmptyString => false
  | String x rest => Ascii.eqb x c || contains_char c rest
  end.

(** The images of page [pg], as lines 230-232 slice them. *)
Definition pagina (imagenes : list string) (pg : Z) : list string :=
  let total_imagenes := Z.of_nat (List.length imagenes) in
  let start_idx := pg * IMAGES_PER_PAGE in
  let end_idx := Z.min (start_idx + IMAGES_PER_PAGE) total_imagenes in
  py_slice imagenes start_idx end_idx.

(** [total_pages] of line 198. *)
Definition paginas (imagenes : list string) : Z :=
  (Z.of_nat (List.length imagenes) + IMAGES_PER_PAGE - 1) / IMAGES_PER_PAGE.

(** The page index a click leaves in the session state. *)
Definition destino (click : Click) (pg tp : Z) : option Z :=
  match click with
  | NoClick => Some pg
  | ClickPrimera => Some 0
  | ClickAnterior => Some (Z.max 0 (pg - 1))
  | ClickSiguiente => Some (Z.min (tp - 1) (pg + 1))
  | ClickUltima => Some (tp - 1)
  | ClickVolver => None
  end.

(** ** The grid of thumbnails, lines 242-313 *)

(** What a column of the grid shows: the thumbnail, or the original
    shrunk in place when the thumbnail cannot be shown, each with the
    number of its caption [Foto N] and the number in the key [view_N] of
    its button; or the error box [Error cargando imagen N], with neither
    caption nor button. *)
Inductive Celda : Type :=
  | CeldaMiniatura (par : string * string) (foto view : Z)
  | CeldaOriginal (par : string * string) (foto view : Z)
  | CeldaError (imagen : Z).

(** [range(0, stop, 2)] *)
Definition py_range_by_2 (stop : Z) : list Z :=
  map (fun k => 2 * Z.of_nat k) (seq 0 (Z.to_nat ((stop + 1) / 2))).

(** [Image.open(path)], with the decoding that showing the image asks
    for. *)
Definition Image_open_path (E : Env) (path : string) : M Image :=
  data <- open_rb path ;;
  lift (Image_open E data).

(** The nested [try] blocks of one column, lines 252-279 and 286-313,
    with the numbers of the caption, of the button key and of the error
    message as the column writes them.  No button is clicked in the run
    modelled here. *)
Definition mostrar_celda (E : Env) (par : string * string) (foto view imagen : Z)
    : M Celda :=
  let '(original_path, thumbnail_path) := par in
  try_except
    (thumbnail_img <- Image_open_path E thumbnail_path ;;
     ret (CeldaMiniatura par foto view))
    is_Exception
    (try_except
       (original_img <- Image_open_path E original_path ;;
        original_img <- lift (Image_thumbnail E original_img THUMBNAIL_SIZE) ;;
        ret (CeldaOriginal par foto view))
       is_Exception
       (ret (CeldaError imagen))).

(** One pass of the loop: the first column shows item [i], the second
    item [i + 1] when there is one.  Both reads are guarded by the length
    tests of the source, so the lookups find their item. *)
Definition fila (E : Env) (thumbnail_results : list (string * string))
    (start_idx i : Z) : M (list Celda) :=
  let len := Z.of_nat (List.length thumbnail_results) in
  col1 <- (if i <? len then
             match thumbnail_results !! Z.to_nat i with
             | Some par =>
                 celda <- mostrar_celda E par (start_idx + i + 1) (start_idx + i) (i + 1) ;;
                 ret [celda]
             | None => ret []
             end
           else ret []) ;;
  col2 <- (if i + 1 <? len then
             match thumbnail_results !! Z.to_nat (i + 1) with
             | Some par =>
                 celda <- mostrar_celda E par (start_idx + i + 2) (start_idx + i + 1) (i + 2) ;;
                 ret [celda]
             | None => ret []
             end
           else ret []) ;;
  ret (col1 ++ col2)%list.

(** A [for] loop that collects what each pass shows. *)
Fixpoint for_each {A B : Type} (f : A -> M B) (l : list A) : M (list B) :=
  match l with
  | [] => ret []
  | x :: rest =>
      y <- f x ;;
      ys <- for_each f rest ;;
      ret (y :: ys)
  end.

(** The rows of the grid. *)
Definition grid (E : Env) (thumbnail_results : list (string * string)) (start_idx : Z)
    : M (list (list Celda)) :=
  for_each (fila E thumbnail_results start_idx)
    (py_range_by_2 (Z.of_nat (List.length thumbnail_results))).

(** What the column of the [j]-th pair of a page that starts at
    [start_idx] comes to in world [w]. *)
Definition celda_de (E : Env) (w : World) (start_idx : Z) (j : nat)
    (par : string * string) : outcome Celda :=
  fst (mostrar_celda E par (start_idx + Z.of_nat j + 1) (start_idx + Z.of_nat j)
         (Z.of_nat j + 1) w).

(** The decoder and the resizer raise nothing outside [Exception]. *)
Definition raises_only_Exception (E : Env) : Prop :=
  (forall data e, Image_open E data = Raise e -> is_Exception e = true) /\
  (forall img box e, Image_thumbnail E img box = Raise e -> is_Exception e = true).

(** The world after the thumbnail of [foto_a] has been made. *)
Definition thumbnailed_world : World :=
  snd (get_or_create_thumbnail sample_env foto_a sample_world).

(** ** The list of galleries, lines 425-442 *)

(** [os.path.isdir(path)] *)
Definition os_path_isdir (path : string) : M bool :=
  fun w => (Ret (bool_decide (is_Some (directories w !! path))), w).

(** The loop over the entries of the galleries folder: a button, with
    the number of images in its label, for each sub-directory in which
    the lister finds at least one image. *)
Fixpoint botones_de_galerias (ruta : string) (directorios : list string)
    (botones : list (string * Z)) : M (list (string * Z)) :=
  match directorios with
  | [] => ret botones
  | directorio :: rest =>
      es_dir <- os_path_isdir (os_path_join ruta directorio) ;;
      if es_dir then
        (imagenes <- obtener_imagenes_galeria directorio ;;
         let cantidad := Z.of_nat (List.length imagenes) in
         if cantidad >? 0
         then botones_de_galerias ruta rest (botones ++ [(directorio, cantidad)])
         else botones_de_galerias ruta rest botones)
      else botones_de_galerias ruta rest botones
  end.

(** The section shown while no gallery is selected, in a run in which no
    button is clicked: the buttons, or [None] for the warning that the
    folder is missing. *)
Definition seccion_galerias : M (option (list (string * Z))) :=
  let ruta := "imagenes/Galerias" in
  found <- os_path_exists ruta ;;
  if found then
    (directorios <- os_listdir ruta ;;
     botones <- botones_de_galerias ruta directorios [] ;;
     ret (Some botones))
  else ret None.

(** Two worlds with the same files and directories. *)
Definition same_disk (w w' : World) : Prop :=
  files w' = files w /\ unreadable w' = unreadable w /\ directories w' = directories w.

(** Every entry of the lister's memo table that still answers agrees
    with the directories. *)
Definition gallery_cache_fresh (w : World) : Prop :=
  forall nombre, cache_fresh 1800 gallery_cache obtener_imagenes_galeria_body nombre w.

(** The button of an entry of the galleries folder, if it gets one. *)
Definition boton_de (w : World) (directorio : string) : option (string * Z) :=
  match directories w !! ("imagenes/Galerias/" +:+ directorio) with
  | Some archivos =>
      let cantidad := Z.of_nat (List.length (List.filter es_imagen archivos)) in
      if cantidad >? 0 then Some (directorio, cantidad) else None
  | None => None
  end.

(** The listings are as [os.listdir] gives them: distinct names, none
    with a slash. *)
Definition listados_bien_formados (w : World) : Prop :=
  forall d archivos,
    directories w !! d = Some archivos ->
    NoDup archivos /\ forall a, a ∈ archivos -> contains_char "/" a = false.

(** A galleries folder for the examples: a gallery with images, one
    without, and a plain file. *)
Definition portfolio_world : World :=
  {| files := files sample_world;
     unreadable := ∅;
     directories :=
       {[ "imagenes/Galerias" := ["boda"; "vacia"; "LEEME.txt"];
          "imagenes/Galerias/boda" :=
            ["b.jpg"; "notes.txt"; "a.jpg"; "photo1.jpg"; "photo1.JPG"; "rota.jpg";
             "fatal.jpg"; "c.WebP"; "jpg"];
          "imagenes/Galerias/vacia" := ["notes.txt"] ]};
     save_faults := ∅;
     now := 1000;
     hash_cache := ∅;
     thumbnail_cache := ∅;
     preview_cache := ∅;
     gallery_cache := ∅;
     transcodes := [] |}.

(** ** Worlds in which a memo table has fallen behind the disk *)

Definition set_directories (d : gmap string (list string)) (w : World) : World :=
  {| files := files w; unreadable := unreadable w; directories := d;
     save_faults := save_faults w; now := now w; hash_cache := hash_cache w;
     thumbnail_cache := thumbnail_cache w; preview_cache := preview_cache w;
     gallery_cache := gallery_cache w; transcodes := transcodes w |}.

(** [foto_a] is asked for before it is on the disk: the preview resolver
    runs on the missing file, so the hasher memoises the fallback key of
    the path.  Ten seconds later the file is uploaded, with the bytes
    [foto_b] already has. *)
Definition late_upload_world : World :=
  let before := set_files (delete foto_a (files sample_world)) sample_world in
  let asked := snd (get_or_create_preview sample_env foto_a before) in
  set_files (<[foto_a := [x01; x02; x03]]> (files asked)) (elapse 10 asked).

(** The gallery is listed, and ten minutes later [b.jpg] is deleted. *)
Definition after_delete_world : World :=
  let listed := snd (obtener_imagenes_galeria "boda" sample_world) in
  set_directories
    (<["imagenes/Galerias/boda" :=
         ["notes.txt"; "a.jpg"; "photo1.jpg"; "photo1.JPG"; "rota.jpg";
          "fatal.jpg"; "c.WebP"; "jpg"]]> (directories listed))
    (set_files (delete foto_b (files listed)) (elapse 600 listed)).

(** The gallery is listed, and ten minutes later the whole directory is
    removed. *)
Definition after_rmdir_world : World :=
  let listed := snd (obtener_imagenes_galeria "boda" sample_world) in
  set_directories ∅ (set_files ∅ (elapse 600 listed)).

(** What a run of a resolver from [w] shows of the artifact path it
    composed for [image_path]: the run returned that path and the path
    exists afterwards, or the run returned the source path after a
    transcoding to that path failed. *)
Definition resolves_to (run : outcome string * World) (w : World)
    (image_path artifact : string) : Prop :=
  (fst run = Ret artifact /\ path_exists (snd run) artifact = true) \/
  (fst run = Ret image_path /\
   transcodes (snd run) = (transcodes w ++ [(image_path, artifact, false)])%list).

(** ** Pillow's Image.thumbnail: what the transcoder relies on *)

(** Width and height both within the box. *)
Definition fits_in_box (s box : Z * Z) : Prop :=
  fst s <= fst box /\ snd s <= snd box.

Definition longest_side (s : Z * Z) : Z := Z.max (fst s) (snd s).

(** Neither side longer than the same side of the original. *)
Definition not_upscaled (s original : Z * Z) : Prop :=
  fst s <= fst original /\ snd s <= snd original.

(** The ratio of [s] is that of the original up to the rounding of one
    side to a whole pixel: the width is less than one pixel away from
    [height s * width / height], or the height is less than one pixel
    away from [width s * height / width]. *)
Definition aspect_within_rounding (s original : Z * Z) : Prop :=
  Z.abs (fst s * snd original - snd s * fst original) < snd original \/
  Z.abs (fst s * snd original - snd s * fst original) < fst original.

(** The documented behaviour of the three Pillow calls on sizes:
    [Image.open] gives an image of at least one pixel each way,
    [convert] keeps the size, and [thumbnail(box)] leaves "a thumbnail
    version of itself, no larger than the given size", of the same
    aspect, and never enlarges. *)
Definition Pillow_contract (E : Env) : Prop :=
  (forall data img, Image_open E data = Ret img ->
     1 <= fst (size img) /\ 1 <= snd (size img)) /\
  (forall img m out, Image_convert E img m = Ret out -> size out = size img) /\
  (forall img box out, Image_thumbnail E img box = Ret out ->
     1 <= fst (size img) -> 1 <= snd (size img) ->
     1 <= fst box -> 1 <= snd box ->
     fits_in_box (size out) box /\
     not_upscaled (size out) (size img) /\
     aspect_within_rounding (size out) (size img)).

(** Pillow's own size computation ([Image.thumbnail], the inner
    [preserve_aspect_ratio] and [round_aspect]), with the quotients
    compared exactly instead of in floating point.  [number] is
    [num / den]; [key_le a b] is [key(a) <= key(b)], and [min] keeps its
    first argument on a tie. *)
Definition round_aspect (num den : Z) (key_le : Z -> Z -> bool) : Z :=
  let floor := num / den in
  let ceil := - ((- num) / den) in
  Z.max (if key_le floor ceil then floor else ceil) 1.

Definition Pillow_thumbnail_size (original box : Z * Z) : Z * Z :=
  let '(width, height) := original in
  let '(x, y) := box in
  if (x >=? width) && (y >=? height) then original
  else if x * height >=? width * y
  then
    (* x / y >= aspect: key(n) = abs(aspect - n / y) *)
    (round_aspect (y * width) height
       (fun a b => Z.abs (width * y - a * height) <=? Z.abs (width * y - b * height)),
     y)
  else
    (* key(n) = 0 if n == 0 else abs(aspect - x / n) *)
    (x,
     round_aspect (x * height) width
       (fun a b =>
          (a =? 0) ||
          (Z.abs (width * a - x * height) * b <=? Z.abs (width * b - x * height) * a))).

(** The sample environment, with Pillow's size computation in
    [thumbnail]. *)
Definition pillow_env : Env :=
  {| str_hash := str_hash sample_env;
     Image_open := Image_open sample_env;
     Image_convert := Image_convert sample_env;
     Image_thumbnail := fun img box =>
       Ret {| mode := mode img; size := Pillow_thumbnail_size (size img) box;
              pixels := pixels img |};
     Image_encode := Image_encode sample_env |}.

(** ** Proof automation for the transcoder *)

Ltac break_match :=
  match goal with
  | |- context [match ?x with _ => _ end] => destruct x eqn:?
  | H : context [match ?x with _ => _ end] |- _ => destruct x eqn:?
  end.

Ltac run_transcoder :=
  unfold optimize_image_for_web, transcode_steps, traced, try_except, bind, open_rb,
    lift, ret, Image_save;
  repeat (break_match; simplify_eq/=).

(** ** Properties *)

Example md5_empty :
  MD5.hexdigest [] = "d41d8cd98f00b204e9800998ecf8427e".
Proof. vm_compute. reflexivity. Qed.

Example md5_abc :
  MD5.hexdigest [Byte.x61; Byte.x62; Byte.x63] = "900150983cd24fb0d6963f7d28e17f72".
Proof. vm_compute. reflexivity. Qed.

Example md5_two_blocks :
  MD5.hexdigest (repeat Byte.x61 70) = "0f5c6c4e740bfcc08c3c26ccb2673d46".
Proof. vm_compute. reflexivity. Qed.

Example str_of_int_examples :
  str_of_int 0 = "0" /\ str_of_int (-42) = "-42" /\
  str_of_int 9223372036854775807 = "9223372036854775807" /\
  str_of_int (-9223372036854775808) = "-9223372036854775808".
Proof. vm_compute. repeat split. Qed.

(** *** The two shapes of a key *)

Lemma hex_of_bytes_length (bs : list Z) :
  String.length (MD5.hex_of_bytes bs) = (2 * List.length bs)%nat.
Proof.
  induction bs as [|b bs IH]; simpl; [reflexivity|].
  rewrite IH. lia.
Qed.

Lemma le_bytes_length (n : nat) (x : Z) : List.length (MD5.le_bytes n x) = n.
Proof.
  revert x. induction n as [|n IH]; intros x; simpl; [reflexivity|].
  now rewrite IH.
Qed.

Lemma digest_length (data : list byte) : List.length (MD5.digest data) = 16%nat.
Proof.
  unfold MD5.digest.
  destruct (fold_left _ _ _) as [[[a0 b0] c0] d0].
  rewrite !length_app, !le_bytes_length. reflexivity.
Qed.

Lemma hexdigest_length (data : list byte) :
  String.length (MD5.hexdigest data) = 32%nat.
Proof.
  unfold MD5.hexdigest. rewrite hex_of_bytes_length, digest_length. reflexivity.
Qed.

Lemma decimal_digits_length (fuel : nat) :
  forall (n : Z) (acc : string) (k : nat),
    0 <= n < 10 ^ Z.of_nat k -> (1 <= k)%nat ->
    (String.length (decimal_digits fuel n acc) <= k + String.length acc)%nat.
Proof.
  induction fuel as [|fuel IH]; intros n acc k Hn Hk; simpl; [lia|].
  destruct (Z.eqb_spec (n / 10) 0) as [Hq|Hq]; simpl; [lia|].
  assert (Hk2 : (2 <= k)%nat).
  { destruct k as [|[|k]]; try lia.
    exfalso. apply Hq. apply Z.div_small. simpl in Hn. lia. }
  assert (Hpow : 10 ^ Z.of_nat k = 10 * 10 ^ Z.of_nat (k - 1)).
  { replace (Z.of_nat k) with (Z.succ (Z.of_nat (k - 1))) by lia.
    rewrite Z.pow_succ_r by lia. reflexivity. }
  specialize (IH (n / 10) (String (digit_char (n mod 10)) acc) (k - 1)%nat).
  simpl in IH.
  assert (0 <= n / 10 < 10 ^ Z.of_nat (k - 1)).
  { split; [apply Z.div_pos; lia|].
    apply Z.div_lt_upper_bound; lia. }
  specialize (IH ltac:(assumption) ltac:(lia)). lia.
Qed.

Lemma to_Py_hash_t_range (h : Z) :
  -9223372036854775808 <= to_Py_hash_t h < 9223372036854775808.
Proof.
  unfold to_Py_hash_t.
  pose proof (Z.mod_pos_bound (h + 9223372036854775808) 18446744073709551616 ltac:(lia)).
  cbv zeta. destruct (_ =? -1); lia.
Qed.

Lemma str_of_int_length (n : Z) :
  -9223372036854775808 <= n < 9223372036854775808 ->
  (String.length (str_of_int n) <= 20)%nat.
Proof.
  intros Hn. unfold str_of_int.
  pose proof (decimal_digits_length (S (Z.to_nat (Z.log2 (Z.abs n)))) (Z.abs n)
                EmptyString 19) as Hlen.
  assert (Hpow : 10 ^ Z.of_nat 19 = 10000000000000000000) by reflexivity.
  rewrite Hpow in Hlen. simpl String.length in Hlen.
  specialize (Hlen ltac:(lia) ltac:(lia)).
  destruct (n <? 0); simpl; lia.
Qed.

Lemma fallback_key_is_not_a_digest (E : Env) (path : string) (data : list byte) :
  str_of_int (py_hash E path) <> MD5.hexdigest data.
Proof.
  intros Heq.
  pose proof (str_of_int_length (py_hash E path) (to_Py_hash_t_range _)) as Hlen.
  rewrite Heq, hexdigest_length in Hlen. lia.
Qed.

(** *** Evaluation of the hasher *)

Lemma get_image_hash_body_readable (E : Env) (w : World) (path : string) (data : list byte) :
  read_file w path = Some data ->
  get_image_hash_body E path w = (Ret (MD5.hexdigest data), w).
Proof.
  intros Hr. unfold get_image_hash_body, try_except, bind, open_rb, ret.
  now rewrite Hr.
Qed.

Lemma get_image_hash_body_unreadable (E : Env) (w : World) (path : string) :
  read_file w path = None ->
  get_image_hash_body E path w = (Ret (str_of_int (py_hash E path)), w).
Proof.
  intros Hr. unfold get_image_hash_body, try_except, bind, open_rb, ret.
  now rewrite Hr.
Qed.

Lemma get_image_hash_body_eq (E : Env) (w : World) (path : string) :
  get_image_hash_body E path w = (Ret (content_key E w path), w).
Proof.
  unfold content_key. destruct (read_file w path) eqn:Hr.
  - now apply get_image_hash_body_readable.
  - now apply get_image_hash_body_unreadable.
Qed.

(** *** The memo decorator *)

Section CacheData.

Context {A : Type} (ttl : Z) (table : World -> gmap string (A * Z))
        (store : gmap string (A * Z) -> World -> World)
        (body : string -> M A).

Lemma cache_data_hit (arg : string) (w : World) (v : A) (created : Z) :
  table w !! arg = Some (v, created) -> now w < created + ttl ->
  cache_data ttl table store body arg w = (Ret v, w).
Proof.
  intros Hl Hlive. unfold cache_data. rewrite Hl.
  destruct (Z.ltb_spec (now w) (created + ttl)); [reflexivity|lia].
Qed.

Lemma cache_data_cases (arg : string) (w : World) :
  (exists v created, table w !! arg = Some (v, created) /\ now w < created + ttl /\
                     cache_data ttl table store body arg w = (Ret v, w)) \/
  (exists v w', body arg w = (Ret v, w') /\
                cache_data ttl table store body arg w =
                  (Ret v, store (<[arg := (v, now w')]> (table w')) w')) \/
  (exists e w', body arg w = (Raise e, w') /\
                cache_data ttl table store body arg w = (Raise e, w')).
Proof.
  unfold cache_data.
  destruct (table w !! arg) as [[v created]|] eqn:Hl.
  - destruct (Z.ltb_spec (now w) (created + ttl)).
    + left. eauto 6.
    + right. destruct (body arg w) as [[v'|e] w']; [left|right]; eauto.
  - right. destruct (body arg w) as [[v'|e] w']; [left|right]; eauto.
Qed.

Lemma cache_data_value (arg : string) (w : World) :
  cache_fresh ttl table body arg w ->
  fst (cache_data ttl table store body arg w) = fst (body arg w).
Proof.
  intros Hfresh.
  destruct (cache_data_cases arg w) as
    [(v & c & Hl & Hlive & ->)|[(v & w' & Hb & ->)|(e & w' & Hb & ->)]]; simpl.
  - symmetry. eapply Hfresh; eauto.
  - now rewrite Hb.
  - now rewrite Hb.
Qed.

End CacheData.

Lemma set_hash_cache_id (w : World) : set_hash_cache (hash_cache w) w = w.
Proof. now destruct w. Qed.

(** The hasher returns a key, touches nothing but its memo table, and
    leaves there an entry for the path that holds the key returned. *)
Lemma get_image_hash_spec (E : Env) (path : string) (w : World) :
  exists key c created,
    get_image_hash E path w = (Ret key, set_hash_cache c w) /\
    c !! path = Some (key, created) /\
    (hash_cache_fresh E path w -> key = content_key E w path).
Proof.
  unfold get_image_hash, hash_cache_fresh.
  destruct (cache_data_cases 3600 hash_cache set_hash_cache (get_image_hash_body E) path w)
    as [(v & c & Hl & Hlive & Heq)|[(v & w' & Hb & Heq)|(e & w' & Hb & Heq)]].
  - exists v, (hash_cache w), c. rewrite set_hash_cache_id. repeat split; auto.
    intros Hfresh. specialize (Hfresh v c Hl Hlive).
    rewrite get_image_hash_body_eq in Hfresh. simpl in Hfresh. congruence.
  - rewrite get_image_hash_body_eq in Hb. inversion Hb; subst.
    eexists _, _, _. split; [exact Heq|]. split; [apply lookup_insert_eq|reflexivity].
  - rewrite get_image_hash_body_eq in Hb. discriminate.
Qed.

Lemma get_image_hash_cases (E : Env) (path : string) (w : World) :
  exists key c created,
    get_image_hash E path w = (Ret key, set_hash_cache c w) /\
    c !! path = Some (key, created) /\
    ((exists t, hash_cache w !! path = Some (key, t)) \/ key = content_key E w path).
Proof.
  unfold get_image_hash.
  destruct (cache_data_cases 3600 hash_cache set_hash_cache (get_image_hash_body E) path w)
    as [(v & c & Hl & Hlive & Heq)|[(v & w' & Hb & Heq)|(e & w' & Hb & Heq)]].
  - exists v, (hash_cache w), c. rewrite set_hash_cache_id. eauto 6.
  - rewrite get_image_hash_body_eq in Hb. inversion Hb; subst.
    eexists _, _, _. split; [exact Heq|]. split; [apply lookup_insert_eq|now right].
  - rewrite get_image_hash_body_eq in Hb. discriminate.
Qed.

(** *** The transcoder *)

(** What the flag and the trace say after a call of the transcoder. *)
Lemma optimize_image_for_web_trace (E : Env) (src dst : string) (box : Z * Z)
    (q : Z) (fmt : string) (w w' : World) (r : outcome bool) :
  optimize_image_for_web E src dst box q fmt w = (r, w') ->
  transcodes w' =
    (transcodes w ++ [(src, dst, match r with Ret b => b | Raise _ => false end)])%list /\
  (forall e, r = Raise e -> is_Exception e = false).
Proof.
  run_transcoder; intros Hrun; simplify_eq/=;
    (split; [reflexivity|]); intros e' He'; simplify_eq/=; done.
Qed.

(** A call that returns true read the source and wrote the destination;
    nothing else moved. *)
Lemma optimize_image_for_web_true (E : Env) (src dst : string) (box : Z * Z)
    (q : Z) (fmt : string) (w w' : World) :
  optimize_image_for_web E src dst box q fmt w = (Ret true, w') ->
  exists data encoded,
    read_file w src = Some data /\
    w' = set_transcodes (transcodes w ++ [(src, dst, true)])%list
           (set_files (<[dst := encoded]> (files w)) w).
Proof.
  run_transcoder; intros Hrun; simplify_eq/=; eauto.
Qed.

(** *** The size of the transcoded image *)

Example Pillow_thumbnail_size_examples :
  Pillow_thumbnail_size (1200, 900) (400, 300) = (400, 300) /\
  Pillow_thumbnail_size (1000, 333) (400, 300) = (400, 133) /\
  Pillow_thumbnail_size (333, 1000) (400, 300) = (100, 300) /\
  Pillow_thumbnail_size (200, 100) (400, 300) = (200, 100) /\
  Pillow_thumbnail_size (5000, 3) (400, 300) = (400, 1) /\
  Pillow_thumbnail_size (640, 480) (800, 600) = (640, 480).
Proof. vm_compute. repeat split; reflexivity. Qed.

Lemma round_aspect_bounds (num den : Z) (key_le : Z -> Z -> bool) :
  0 < num -> 0 < den ->
  1 <= round_aspect num den key_le /\
  Z.abs (round_aspect num den key_le * den - num) < den /\
  (forall m, 1 <= m -> num <= m * den -> round_aspect num den key_le <= m).
Proof.
  intros Hnum Hden. unfold round_aspect.
  set (fl := num / den). set (ce := - (- num / den)).
  assert (Hfl : fl * den <= num < fl * den + den).
  { unfold fl. pose proof (Z.div_mod num den ltac:(lia)).
    pose proof (Z.mod_pos_bound num den Hden). nia. }
  assert (Hce : ce * den - den < num <= ce * den).
  { unfold ce. pose proof (Z.div_mod (- num) den ltac:(lia)).
    pose proof (Z.mod_pos_bound (- num) den Hden). nia. }
  assert (Hfl0 : 0 <= fl) by nia.
  assert (Hce1 : 1 <= ce) by nia.
  assert (Hflce : fl <= ce) by nia.
  destruct (key_le fl ce).
  - destruct (Z.max_spec fl 1) as [[Hlt ->]|[Hge ->]].
    + assert (fl = 0) by lia. split; [lia|]. split; [|intros; lia].
      assert (ce = 1) by nia. nia.
    + split; [lia|]. split; [nia|]. intros m Hm Hle. nia.
  - rewrite Z.max_l by lia. split; [lia|]. split; [nia|].
    intros m Hm Hle. nia.
Qed.

(** Pillow's size computation meets the contract. *)
Lemma Pillow_thumbnail_size_contract (original box : Z * Z) :
  1 <= fst original -> 1 <= snd original -> 1 <= fst box -> 1 <= snd box ->
  fits_in_box (Pillow_thumbnail_size original box) box /\
  not_upscaled (Pillow_thumbnail_size original box) original /\
  aspect_within_rounding (Pillow_thumbnail_size original box) original.
Proof.
  destruct original as [width height], box as [x y]. simpl.
  intros Hw Hh Hx Hy.
  unfold Pillow_thumbnail_size, fits_in_box, not_upscaled, aspect_within_rounding.
  destruct (Z.geb_spec x width) as [Hxw|Hxw];
    [destruct (Z.geb_spec y height) as [Hyh|Hyh]|]; simpl.
  - repeat split; lia.
  - assert (Hcase : x * height >= width * y) by nia.
    destruct (Z.geb_spec (x * height) (width * y)) as [_|Hno]; [|lia]. simpl.
    match goal with |- context [round_aspect ?n ?d ?k] =>
      destruct (round_aspect_bounds n d k ltac:(nia) ltac:(lia)) as (H1 & Habs & Hup);
      set (r := round_aspect n d k) in *
    end.
    assert (r <= x) by (apply Hup; [lia|nia]).
    assert (r <= width) by (apply Hup; [lia|nia]).
    repeat split; try lia; left; exact Habs.
  - destruct (Z.geb_spec (x * height) (width * y)) as [Hcase|Hcase]; simpl.
    + match goal with |- context [round_aspect ?n ?d ?k] =>
        destruct (round_aspect_bounds n d k ltac:(nia) ltac:(lia)) as (H1 & Habs & Hup);
        set (r := round_aspect n d k) in *
      end.
      assert (r <= x) by (apply Hup; [lia|nia]).
      assert (r <= width) by (apply Hup; [lia|nia]).
      assert (y <= height) by nia.
      repeat split; try lia; left; exact Habs.
    + match goal with |- context [round_aspect ?n ?d ?k] =>
        destruct (round_aspect_bounds n d k ltac:(nia) ltac:(lia)) as (H1 & Habs & Hup);
        set (r := round_aspect n d k) in *
      end.
      assert (r <= y) by (apply Hup; [lia|nia]).
      assert (r <= height) by (apply Hup; [lia|nia]).
      repeat split; try lia; right;
        replace (x * height - r * width) with (- (r * width - x * height)) by lia;
        rewrite Z.abs_opp; exact Habs.
Qed.

(** What a successful call of the transcoder did, step by step. *)
Lemma optimize_image_for_web_steps (E : Env) (src dst : string) (box : Z * Z)
    (q : Z) (fmt : string) (w w' : World) :
  optimize_image_for_web E src dst box q fmt w = (Ret true, w') ->
  exists data original converted written kw encoded,
    read_file w src = Some data /\
    Image_open E data = Ret original /\
    (converted = original \/ Image_convert E original "RGB" = Ret converted) /\
    Image_thumbnail E converted box = Ret written /\
    Image_encode E written kw = Ret encoded /\
    files w' !! dst = Some encoded.
Proof.
  run_transcoder; intros Hrun; simplify_eq/=.
  all: eexists _, _, _, _, _, _; repeat split; eauto.
  all: apply lookup_insert_eq.
Qed.

(** C7. Relative to the documented behaviour of Pillow's [Image.open],
    [convert] and [thumbnail] on sizes: when [optimize_image_for_web]
    returns true for a box of at least one pixel each way, the file at
    the destination is the encoding of an image that fits within the box
    (so its longest side is at most the box's longest side), that is on
    neither side larger than the decoded source, and whose aspect ratio
    is that of the source up to the rounding of one side to a whole
    pixel. *)
Theorem transcoded_image_fits_box (E : Env) (src dst : string) (box : Z * Z)
    (q : Z) (fmt : string) (w w' : World) :
  Pillow_contract E ->
  1 <= fst box -> 1 <= snd box ->
  optimize_image_for_web E src dst box q fmt w = (Ret true, w') ->
  exists data original written kw encoded,
    read_file w src = Some data /\
    Image_open E data = Ret original /\
    Image_encode E written kw = Ret encoded /\
    files w' !! dst = Some encoded /\
    fits_in_box (size written) box /\
    longest_side (size written) <= longest_side box /\
    not_upscaled (size written) (size original) /\
    aspect_within_rounding (size written) (size original).
Proof.
  intros (Hopen & Hconv & Hthumb) Hx Hy Hrun.
  apply optimize_image_for_web_steps in Hrun
    as (data & original & converted & written & kw & encoded &
        Hread & Ho & Hc & Ht & He & Hfile).
  destruct (Hopen _ _ Ho) as [Hw Hh].
  assert (Hsize : size converted = size original).
  { destruct Hc as [->|Hc]; [reflexivity|]. now apply Hconv in Hc. }
  rewrite <- Hsize in Hw, Hh.
  destruct (Hthumb _ _ _ Ht Hw Hh Hx Hy) as (Hfit & Hno & Hasp).
  rewrite Hsize in Hno, Hasp.
  exists data, original, written, kw, encoded.
  repeat split; try assumption; try apply Hfit; try apply Hno.
  unfold longest_side. destruct Hfit. lia.
Qed.

Lemma pillow_env_contract : Pillow_contract pillow_env.
Proof.
  split; [|split].
  - intros data img H. simpl in H.
    destruct data as [|b rest]; [discriminate|].
    destruct b; inversion H; subst; simpl; lia.
  - intros img m out H. simpl in H. now inversion H.
  - intros img box out H Hw Hh Hx Hy. simpl in H. inversion H; subst; simpl.
    now apply Pillow_thumbnail_size_contract.
Qed.

Lemma transcoded_image_fits_box_witness :
  exists written kw,
    files (snd (optimize_image_for_web pillow_env foto_a "cache/thumbnails/k_thumb.webp"
                  THUMBNAIL_SIZE THUMBNAIL_QUALITY "WebP" sample_world))
      !! "cache/thumbnails/k_thumb.webp" = Some (x52 :: x49 :: x46 :: x46 :: pixels written) /\
    Image_encode pillow_env written kw = Ret (x52 :: x49 :: x46 :: x46 :: pixels written) /\
    fits_in_box (size written) (400, 300) /\
    not_upscaled (size written) (1200, 900) /\
    aspect_within_rounding (size written) (1200, 900).
Proof.
  destruct (transcoded_image_fits_box pillow_env foto_a "cache/thumbnails/k_thumb.webp"
              THUMBNAIL_SIZE THUMBNAIL_QUALITY "WebP" sample_world
              (snd (optimize_image_for_web pillow_env foto_a "cache/thumbnails/k_thumb.webp"
                      THUMBNAIL_SIZE THUMBNAIL_QUALITY "WebP" sample_world)))
    as (data & original & written & kw & encoded & Hread & Ho & He & Hfile & Hfit & _ & Hno & Hasp).
  - exact pillow_env_contract.
  - simpl. lia.
  - simpl. lia.
  - vm_compute. reflexivity.
  - vm_compute in Hread. inversion Hread; subst data.
    vm_compute in Ho. inversion Ho; subst original.
    exists written, kw.
    assert (Henc : encoded = x52 :: x49 :: x46 :: x46 :: pixels written)
      by (simpl in He; now inversion He).
    rewrite <- Henc. repeat split; try assumption; try apply Hfit; try apply Hno.
Defined.

(** *** The resolvers *)

Lemma thumbnail_steps_eq (E : Env) (p : string) :
  thumbnail_steps E p =
  resolve_steps E thumbnail_artifact THUMBNAIL_SIZE THUMBNAIL_QUALITY p.
Proof. reflexivity. Qed.

Lemma preview_steps_eq (E : Env) (p : string) :
  preview_steps E p =
  resolve_steps E preview_artifact PREVIEW_SIZE PREVIEW_QUALITY p.
Proof. reflexivity. Qed.

Lemma path_exists_set_hash_cache (c : gmap string (string * Z)) (w : World) (p : string) :
  path_exists (set_hash_cache c w) p = path_exists w p.
Proof. reflexivity. Qed.

Lemma resolve_steps_cases (E : Env) (art : string -> string) (box : Z * Z) (q : Z)
    (p : string) (w : World) :
  exists key c created,
    c !! p = Some (key, created) /\
    ((exists t, hash_cache w !! p = Some (key, t)) \/ key = content_key E w p) /\
    (hash_cache_fresh E p w -> key = content_key E w p) /\
    ((path_exists w (art key) = true /\
      resolve_steps E art box q p w = (Ret (art key), set_hash_cache c w)) \/
     (path_exists w (art key) = false /\
      exists ro w',
        optimize_image_for_web E p (art key) box q "WebP" (set_hash_cache c w) = (ro, w') /\
        resolve_steps E art box q p w = (after_transcode (art key) p ro, w'))).
Proof.
  destruct (get_image_hash_cases E p w) as (key & c & created & Hh & Hc & Hsrc).
  destruct (get_image_hash_spec E p w) as (key' & c' & created' & Hh' & _ & Hfresh).
  rewrite Hh in Hh'. inversion Hh'; subst key'. clear Hh'.
  exists key, c, created. repeat split; auto.
  assert (Hrs : resolve_steps E art box q p w =
                if path_exists w (art key) then (Ret (art key), set_hash_cache c w)
                else let '(ro, w') := optimize_image_for_web E p (art key) box q "WebP"
                                        (set_hash_cache c w) in
                     (after_transcode (art key) p ro, w')).
  { unfold resolve_steps, bind, os_path_exists, ret. rewrite Hh.
    change (path_exists (set_hash_cache c w) (art key)) with (path_exists w (art key)).
    destruct (path_exists w (art key)); [reflexivity|].
    destruct (optimize_image_for_web _ _ _ _ _ _ _) as [[[|]|e] w']; reflexivity. }
  rewrite Hrs. destruct (path_exists w (art key)).
  - left. split; reflexivity.
  - right. split; [reflexivity|].
    destruct (optimize_image_for_web _ _ _ _ _ _ _) as [ro w'].
    exists ro, w'. split; reflexivity.
Qed.

Lemma get_or_create_thumbnail_body_eq (E : Env) (p : string) :
  get_or_create_thumbnail_body E p =
  resolve_body E thumbnail_artifact THUMBNAIL_SIZE THUMBNAIL_QUALITY p.
Proof. reflexivity. Qed.

Lemma get_or_create_preview_body_eq (E : Env) (p : string) :
  get_or_create_preview_body E p =
  resolve_body E preview_artifact PREVIEW_SIZE PREVIEW_QUALITY p.
Proof. reflexivity. Qed.

Lemma app_one_neq {A} (l : list A) (x : A) : l <> (l ++ [x])%list.
Proof.
  intros H. apply (f_equal (@List.length A)) in H.
  rewrite length_app in H. simpl in H. lia.
Qed.

Lemma resolve_body_unfold (E : Env) (art : string -> string) (box : Z * Z) (q : Z)
    (p : string) (w : World) :
  resolve_body E art box q p w =
  match resolve_steps E art box q p w with
  | (Ret v, w') => (Ret v, w')
  | (Raise e, w') => (Ret p, w')
  end.
Proof.
  unfold resolve_body, try_except, bare_except, ret.
  destruct (resolve_steps E art box q p w) as [[v|e] w']; reflexivity.
Qed.

(** A resolver body never raises; when its run ends the trace with a
    failed transcoding of the source, or when its steps raise, the value
    is the source path. *)
Lemma resolve_body_returns (E : Env) (art : string -> string) (box : Z * Z) (q : Z)
    (p : string) (w : World) :
  exists v w',
    resolve_body E art box q p w = (Ret v, w') /\
    (forall dst, transcodes w' = (transcodes w ++ [(p, dst, false)])%list -> v = p) /\
    (forall e w0, resolve_steps E art box q p w = (Raise e, w0) -> v = p /\ w' = w0).
Proof.
  rewrite resolve_body_unfold.
  destruct (resolve_steps_cases E art box q p w)
    as (key & c & created & _ & _ & _ & [[Hex Hrs]|[Hex (ro & w' & Hopt & Hrs)]]);
    rewrite Hrs.
  - eexists _, _. split; [reflexivity|]. split.
    + simpl. intros dst Hd. now apply app_one_neq in Hd.
    + intros e w0 He. discriminate.
  - apply optimize_image_for_web_trace in Hopt as [Htr _]. simpl in Htr.
    destruct ro as [[|]|e]; simpl; eexists _, _; (split; [reflexivity|]); split;
      try (intros e' w0 He'; now inversion He');
      try reflexivity; try (intros dst Hd; reflexivity).
    intros dst Hd. rewrite Htr in Hd. apply app_inj_tail in Hd as [_ Hd]. congruence.
Qed.

(** The cache hit of a resolver body: when the composed path exists the
    body returns it after the existence check, and neither the files nor
    the trace change. *)
Lemma resolve_body_hit (E : Env) (art : string -> string) (box : Z * Z) (q : Z)
    (p key : string) (w : World) :
  (forall k t, hash_cache w !! p = Some (k, t) -> k = key) ->
  content_key E w p = key ->
  path_exists w (art key) = true ->
  exists c, resolve_body E art box q p w = (Ret (art key), set_hash_cache c w).
Proof.
  intros Hmemo Hkey Hex. rewrite resolve_body_unfold.
  destruct (resolve_steps_cases E art box q p w)
    as (key' & c & created & _ & Hsrc & _ & Hcases).
  assert (key' = key) as -> by (destruct Hsrc as [[t Ht]| ->]; eauto).
  destruct Hcases as [[_ Hrs]|[Hex' _]]; [|congruence].
  rewrite Hrs. eauto.
Qed.

(** *** Resolving twice *)

Lemma path_exists_file (w : World) (p : string) (data : list byte) :
  files w !! p = Some data -> path_exists w p = true.
Proof.
  intros H. unfold path_exists.
  rewrite bool_decide_eq_true_2; [reflexivity|eauto].
Qed.

Lemma read_file_exists (w : World) (p : string) (data : list byte) :
  read_file w p = Some data -> path_exists w p = true.
Proof.
  unfold read_file. destruct (decide (p ∈ unreadable w)); [discriminate|].
  apply path_exists_file.
Qed.

(** What a call of the thumbnail resolver that created its artifact did. *)
Lemma get_or_create_thumbnail_created (E : Env) (p art : string) (w w1 : World) :
  hash_cache_fresh E p w ->
  get_or_create_thumbnail E p w = (Ret art, w1) ->
  transcodes w1 = (transcodes w ++ [(p, art, true)])%list ->
  exists c created data encoded tc,
    art = thumbnail_artifact (content_key E w p) /\
    c !! p = Some (content_key E w p, created) /\
    read_file w p = Some data /\
    path_exists w art = false /\
    w1 = set_thumbnail_cache (<[p := (art, now w)]> tc)
           (set_transcodes (transcodes w ++ [(p, art, true)])%list
              (set_files (<[art := encoded]> (files w)) (set_hash_cache c w))).
Proof.
  intros Hfresh Hcall Htrace. unfold get_or_create_thumbnail in Hcall.
  destruct (cache_data_cases 7200 thumbnail_cache set_thumbnail_cache
              (get_or_create_thumbnail_body E) p w)
    as [(v & t & _ & _ & Heq)|[(v & w' & Hb & Heq)|(e & w' & _ & Heq)]];
    rewrite Heq in Hcall; inversion Hcall; subst; clear Hcall.
  { now apply app_one_neq in Htrace. }
  simpl in Htrace.
  rewrite get_or_create_thumbnail_body_eq, resolve_body_unfold in Hb.
  destruct (resolve_steps_cases E thumbnail_artifact THUMBNAIL_SIZE THUMBNAIL_QUALITY p w)
    as (key & c & created & Hc & _ & Hk & [[Hex Hrs]|[Hex (ro & w2 & Hopt & Hrs)]]);
    rewrite Hrs in Hb.
  { inversion Hb; subst. simpl in Htrace. now apply app_one_neq in Htrace. }
  specialize (Hk Hfresh). subst key.
  pose proof (optimize_image_for_web_trace _ _ _ _ _ _ _ _ _ Hopt) as [Htr _].
  simpl in Htr.
  assert (Hw2 : w2 = w') by (destruct ro as [[|]|e]; simpl in Hb; now inversion Hb).
  subst w2. rewrite Htr in Htrace. apply app_inj_tail in Htrace as [_ Hlast].
  inversion Hlast as [[Hart Hflag]].
  destruct ro as [[|]|e]; try discriminate. clear Hb Hlast Hflag.
  apply optimize_image_for_web_true in Hopt as (data & encoded & Hread & ->).
  exists c, created, data, encoded. eexists.
  repeat split; eauto.
Qed.

(** A later call in a world that holds the artifact. *)
Lemma get_or_create_thumbnail_again (E : Env) (p key : string) (w : World) :
  (forall v t, thumbnail_cache w !! p = Some (v, t) -> v = thumbnail_artifact key) ->
  (forall k t, hash_cache w !! p = Some (k, t) -> k = key) ->
  content_key E w p = key ->
  path_exists w (thumbnail_artifact key) = true ->
  fst (get_or_create_thumbnail E p w) = Ret (thumbnail_artifact key) /\
  transcodes (snd (get_or_create_thumbnail E p w)) = transcodes w /\
  files (snd (get_or_create_thumbnail E p w)) = files w.
Proof.
  intros Htc Hhc Hkey Hex. unfold get_or_create_thumbnail.
  destruct (resolve_body_hit E thumbnail_artifact THUMBNAIL_SIZE THUMBNAIL_QUALITY
              p key w Hhc Hkey Hex) as [c Hbody].
  rewrite <- get_or_create_thumbnail_body_eq in Hbody.
  destruct (cache_data_cases 7200 thumbnail_cache set_thumbnail_cache
              (get_or_create_thumbnail_body E) p w)
    as [(v & t & Hl & _ & ->)|[(v & w' & Hb & ->)|(e & w' & Hb & ->)]]; simpl.
  - rewrite (Htc _ _ Hl). auto.
  - rewrite Hbody in Hb. inversion Hb; subst. auto.
  - rewrite Hbody in Hb. discriminate.
Qed.

(** Without the agreement of the hasher's memo table with the file, the
    second call differs: in [late_upload_world] the memoised key of
    [foto_a] is the fallback key of its path.  The first call creates
    the artifact named after that key; the call made 7200 seconds later,
    with both memo entries expired, returns the artifact named after the
    MD5 digest and transcodes once more. *)
Lemma stale_key_resolves_to_two_artifacts :
  let w := late_upload_world in
  let first := get_or_create_thumbnail sample_env foto_a w in
  let second := get_or_create_thumbnail sample_env foto_a (elapse 7200 (snd first)) in
  read_file w foto_a = Some [x01; x02; x03] /\
  fst first = Ret "cache/thumbnails/8_thumb.webp" /\
  transcodes (snd first) =
    (transcodes w ++ [(foto_a, "cache/thumbnails/8_thumb.webp", true)])%list /\
  fst second = Ret "cache/thumbnails/5289df737df57326fcdd22597afb1fac_thumb.webp" /\
  transcodes (snd second) =
    (transcodes (snd first) ++
     [(foto_a, "cache/thumbnails/5289df737df57326fcdd22597afb1fac_thumb.webp", true)])%list.
Proof. vm_compute. repeat split; reflexivity. Qed.

(** C1, as amended.  When a call of [get_or_create_thumbnail] on a
    source, made while the memo table of the hasher holds no outdated key
    for it, created the artifact (its run ends the trace with a
    successful transcoding to the returned path), a second call, however
    much later, returns the same artifact path and transcodes nothing:
    trace and files are as the first call left them, the artifact path
    exists, and the body itself, when the memoised answer has expired,
    returns at the existence check having touched only the memo table of
    the hasher. *)
Theorem resolve_twice_is_cache_hit (E : Env) (p art : string) (w w1 : World) (d : Z) :
  hash_cache_fresh E p w ->
  get_or_create_thumbnail E p w = (Ret art, w1) ->
  transcodes w1 = (transcodes w ++ [(p, art, true)])%list ->
  fst (get_or_create_thumbnail E p (elapse d w1)) = Ret art /\
  transcodes (snd (get_or_create_thumbnail E p (elapse d w1))) = transcodes w1 /\
  files (snd (get_or_create_thumbnail E p (elapse d w1))) = files w1 /\
  path_exists (elapse d w1) art = true /\
  exists c, get_or_create_thumbnail_body E p (elapse d w1)
            = (Ret art, set_hash_cache c (elapse d w1)).
Proof.
  intros Hfresh Hcall Htrace.
  destruct (get_or_create_thumbnail_created E p art w w1 Hfresh Hcall Htrace)
    as (c & created & data & encoded & tc & Hart & Hc & Hread & Hex & Hw1).
  set (key := content_key E w p) in *.
  assert (Hfile : files w !! p = Some data).
  { unfold read_file in Hread. now destruct (decide (p ∈ unreadable w)). }
  assert (Hne : art <> p).
  { intros ->. apply read_file_exists in Hread. congruence. }
  assert (Htc : forall v t, thumbnail_cache (elapse d w1) !! p = Some (v, t) ->
                            v = thumbnail_artifact key).
  { intros v t. rewrite Hw1. simpl. rewrite lookup_insert_eq. congruence. }
  assert (Hhc : forall k t, hash_cache (elapse d w1) !! p = Some (k, t) -> k = key).
  { intros k t. rewrite Hw1. simpl. rewrite Hc. congruence. }
  assert (Hkey : content_key E (elapse d w1) p = key).
  { unfold key, content_key, read_file. rewrite Hw1. simpl.
    rewrite lookup_insert_ne by exact Hne. reflexivity. }
  assert (Hex1 : path_exists (elapse d w1) (thumbnail_artifact key) = true).
  { rewrite <- Hart. apply path_exists_file with (data := encoded).
    rewrite Hw1. simpl. apply lookup_insert_eq. }
  destruct (get_or_create_thumbnail_again E p key (elapse d w1) Htc Hhc Hkey Hex1)
    as (Hv & Ht & Hf).
  rewrite <- Hart in Hv, Hex1.
  repeat split; try assumption.
  rewrite Hart, get_or_create_thumbnail_body_eq.
  apply resolve_body_hit; [assumption|assumption|now rewrite <- Hart].
Qed.

Lemma resolve_twice_is_cache_hit_witness :
  let first := get_or_create_thumbnail sample_env foto_a sample_world in
  fst first = Ret "cache/thumbnails/5289df737df57326fcdd22597afb1fac_thumb.webp" /\
  fst (get_or_create_thumbnail sample_env foto_a (elapse 10000 (snd first))) = fst first /\
  transcodes (snd (get_or_create_thumbnail sample_env foto_a (elapse 10000 (snd first))))
  = [(foto_a, "cache/thumbnails/5289df737df57326fcdd22597afb1fac_thumb.webp", true)].
Proof.
  cbv zeta. split; [vm_compute; reflexivity|].
  pose proof (resolve_twice_is_cache_hit sample_env foto_a
                "cache/thumbnails/5289df737df57326fcdd22597afb1fac_thumb.webp"
                sample_world
                (snd (get_or_create_thumbnail sample_env foto_a sample_world))
                10000) as H.
  assert (H1 : hash_cache_fresh sample_env foto_a sample_world).
  { intros v c Hl. vm_compute in Hl. discriminate. }
  assert (H2 : get_or_create_thumbnail sample_env foto_a sample_world =
               (Ret "cache/thumbnails/5289df737df57326fcdd22597afb1fac_thumb.webp",
                snd (get_or_create_thumbnail sample_env foto_a sample_world))).
  { vm_compute. reflexivity. }
  assert (H3 : transcodes (snd (get_or_create_thumbnail sample_env foto_a sample_world)) =
               (transcodes sample_world ++
                [(foto_a, "cache/thumbnails/5289df737df57326fcdd22597afb1fac_thumb.webp", true)])%list).
  { vm_compute. reflexivity. }
  destruct (H H1 H2 H3) as (Hv & Ht & _).
  split.
  - rewrite Hv. vm_compute. reflexivity.
  - rewrite Ht. exact H3.
Defined.

(** *** Degrading to the source path *)

Lemma cached_resolver_returns (E : Env) (ttl : Z)
    (table : World -> gmap string (string * Z))
    (store : gmap string (string * Z) -> World -> World)
    (art : string -> string) (box : Z * Z) (q : Z) (p : string) (w : World) :
  (forall c w0, transcodes (store c w0) = transcodes w0) ->
  exists v w',
    cache_data ttl table store (resolve_body E art box q) p w = (Ret v, w') /\
    (forall dst, transcodes w' = (transcodes w ++ [(p, dst, false)])%list -> v = p) /\
    (forall e w0, cache_miss ttl table p w ->
                  resolve_steps E art box q p w = (Raise e, w0) -> v = p).
Proof.
  intros Hstore.
  destruct (resolve_body_returns E art box q p w) as (v & w' & Hbody & Hfail & Hraise).
  destruct (cache_data_cases ttl table store (resolve_body E art box q) p w)
    as [(v0 & t & Hl & Hlive & ->)|[(v0 & w0' & Hb & ->)|(e & w0' & Hb & ->)]].
  - exists v0, w. split; [reflexivity|]. split.
    + intros dst Hd. now apply app_one_neq in Hd.
    + intros e w0 Hmiss _. specialize (Hmiss _ _ Hl). lia.
  - rewrite Hbody in Hb. inversion Hb; subst v0 w0'.
    eexists _, _. split; [reflexivity|]. split.
    + intros dst. rewrite Hstore. apply Hfail.
    + intros e w0 _ Hr. now apply Hraise in Hr.
  - rewrite Hbody in Hb. discriminate.
Qed.

(** C2. Neither resolver ever raises.  When the call ends the trace with
    a failed transcoding of the source (the transcoder returned false, or
    left through an exception), the value returned is the source path;
    and when the steps inside the [try] raise, in a call that no memoised
    entry answers, the value returned is the source path as well. *)
Theorem resolver_degrades_to_source (E : Env) (p : string) (w : World) :
  (exists v w',
     get_or_create_thumbnail E p w = (Ret v, w') /\
     (forall dst, transcodes w' = (transcodes w ++ [(p, dst, false)])%list -> v = p) /\
     (forall e w0, cache_miss 7200 thumbnail_cache p w ->
                   thumbnail_steps E p w = (Raise e, w0) -> v = p)) /\
  (exists v w',
     get_or_create_preview E p w = (Ret v, w') /\
     (forall dst, transcodes w' = (transcodes w ++ [(p, dst, false)])%list -> v = p) /\
     (forall e w0, cache_miss 7200 preview_cache p w ->
                   preview_steps E p w = (Raise e, w0) -> v = p)).
Proof.
  split.
  - apply (cached_resolver_returns E 7200 thumbnail_cache set_thumbnail_cache
             thumbnail_artifact THUMBNAIL_SIZE THUMBNAIL_QUALITY p w).
    reflexivity.
  - apply (cached_resolver_returns E 7200 preview_cache set_preview_cache
             preview_artifact PREVIEW_SIZE PREVIEW_QUALITY p w).
    reflexivity.
Qed.

Lemma resolver_degrades_to_source_witness :
  fst (get_or_create_thumbnail sample_env foto_rota sample_world) = Ret foto_rota /\
  fst (get_or_create_preview sample_env foto_fatal sample_world) = Ret foto_fatal.
Proof.
  split.
  - destruct (resolver_degrades_to_source sample_env foto_rota sample_world)
      as [(v & w' & Hcall & Hfail & _) _].
    rewrite Hcall. simpl. f_equal.
    apply (Hfail "cache/thumbnails/d41d8cd98f00b204e9800998ecf8427e_thumb.webp").
    replace w' with (snd (get_or_create_thumbnail sample_env foto_rota sample_world))
      by now rewrite Hcall.
    vm_compute. reflexivity.
  - destruct (resolver_degrades_to_source sample_env foto_fatal sample_world)
      as [_ (v & w' & Hcall & _ & Hraise)].
    rewrite Hcall. simpl. f_equal.
    apply (Hraise SystemExit (snd (preview_steps sample_env foto_fatal sample_world))).
    + intros v0 c Hl. vm_compute in Hl. discriminate.
    + vm_compute. reflexivity.
Defined.

(** *** Content addressing *)

Lemma get_image_hash_fresh (E : Env) (p : string) (w : World) :
  hash_cache_fresh E p w ->
  fst (get_image_hash E p w) = Ret (content_key E w p).
Proof.
  intros Hfresh.
  destruct (get_image_hash_spec E p w) as (key & c & created & Hh & _ & Hk).
  rewrite Hh. simpl. now rewrite (Hk Hfresh).
Qed.

(** Without the agreement of the hasher's memo table with the files, two
    readable files with the same bytes get different keys and different
    artifacts: in [late_upload_world] the hasher still answers the
    fallback key for [foto_a], and the MD5 digest for [foto_b]. *)
Lemma stale_key_splits_identical_files :
  let w := late_upload_world in
  foto_a <> foto_b /\
  read_file w foto_a = Some [x01; x02; x03] /\
  read_file w foto_b = Some [x01; x02; x03] /\
  fst (get_image_hash sample_env foto_a w) = Ret "8" /\
  fst (get_image_hash sample_env foto_b w) = Ret "5289df737df57326fcdd22597afb1fac" /\
  fst (get_or_create_thumbnail sample_env foto_a w) = Ret "cache/thumbnails/8_thumb.webp" /\
  fst (get_or_create_thumbnail sample_env foto_b w) =
    Ret "cache/thumbnails/5289df737df57326fcdd22597afb1fac_thumb.webp".
Proof. vm_compute. repeat split; try reflexivity. discriminate. Qed.

(** With a fresh memo table of the hasher, a resolver body composes the
    artifact path of the content key. *)
Lemma resolve_body_resolves_to (E : Env) (art : string -> string) (box : Z * Z) (q : Z)
    (p : string) (w : World) :
  hash_cache_fresh E p w ->
  resolves_to (resolve_body E art box q p w) w p (art (content_key E w p)).
Proof.
  intros Hfresh. rewrite resolve_body_unfold.
  destruct (resolve_steps_cases E art box q p w)
    as (key & c & created & _ & _ & Hk & [[Hex Hrs]|[Hex (ro & w' & Hopt & Hrs)]]);
    rewrite Hrs, <- (Hk Hfresh).
  - left. split; [reflexivity|exact Hex].
  - pose proof (optimize_image_for_web_trace _ _ _ _ _ _ _ _ _ Hopt) as [Htr _].
    destruct ro as [[|]|e]; simpl.
    + left. split; [reflexivity|].
      apply optimize_image_for_web_true in Hopt as (data & encoded & _ & ->).
      apply path_exists_file with (data := encoded). simpl. apply lookup_insert_eq.
    + right. split; [reflexivity|exact Htr].
    + right. split; [reflexivity|exact Htr].
Qed.

(** The same through the decorator, when no memoised answer is in force. *)
Lemma cached_resolver_resolves_to (E : Env) (ttl : Z)
    (table : World -> gmap string (string * Z))
    (store : gmap string (string * Z) -> World -> World)
    (art : string -> string) (box : Z * Z) (q : Z) (p : string) (w : World) :
  (forall c w0, transcodes (store c w0) = transcodes w0) ->
  (forall c w0 x, path_exists (store c w0) x = path_exists w0 x) ->
  hash_cache_fresh E p w ->
  cache_miss ttl table p w ->
  resolves_to (cache_data ttl table store (resolve_body E art box q) p w) w p
    (art (content_key E w p)).
Proof.
  intros Htr Hpe Hfresh Hmiss.
  pose proof (resolve_body_resolves_to E art box q p w Hfresh) as Hbody.
  destruct (cache_data_cases ttl table store (resolve_body E art box q) p w)
    as [(v0 & t & Hl & Hlive & _)|[(v0 & w0' & Hb & ->)|(e & w0' & Hb & ->)]].
  - specialize (Hmiss _ _ Hl). lia.
  - rewrite Hb in Hbody. unfold resolves_to in *. simpl in *.
    rewrite Htr, Hpe. exact Hbody.
  - rewrite Hb in Hbody. destruct Hbody as [[H _]|[H _]]; discriminate.
Qed.

(** C3, as amended.  Two readable files with the same bytes, for which
    the memo table of the hasher holds no outdated key, get the same key
    from [get_image_hash], the MD5 digest of those bytes, whatever their
    paths; and each resolver, for either file, composes the one artifact
    path made from that key: its body returns that path, which then
    exists, or returns the source path after a transcoding to that path
    failed, and so does the decorated resolver when no memoised answer is
    in force. *)
Theorem identical_bytes_same_artifact (E : Env) (w : World) (a b : string)
    (data : list byte) :
  read_file w a = Some data ->
  read_file w b = Some data ->
  hash_cache_fresh E a w ->
  hash_cache_fresh E b w ->
  fst (get_image_hash E a w) = Ret (MD5.hexdigest data) /\
  fst (get_image_hash E b w) = Ret (MD5.hexdigest data) /\
  forall p, p = a \/ p = b ->
    resolves_to (get_or_create_thumbnail_body E p w) w p
      (thumbnail_artifact (MD5.hexdigest data)) /\
    resolves_to (get_or_create_preview_body E p w) w p
      (preview_artifact (MD5.hexdigest data)) /\
    (cache_miss 7200 thumbnail_cache p w ->
     resolves_to (get_or_create_thumbnail E p w) w p
       (thumbnail_artifact (MD5.hexdigest data))) /\
    (cache_miss 7200 preview_cache p w ->
     resolves_to (get_or_create_preview E p w) w p
       (preview_artifact (MD5.hexdigest data))).
Proof.
  intros Ha Hb Hfa Hfb.
  assert (Hka : content_key E w a = MD5.hexdigest data)
    by (unfold content_key; now rewrite Ha).
  assert (Hkb : content_key E w b = MD5.hexdigest data)
    by (unfold content_key; now rewrite Hb).
  pose proof (get_image_hash_fresh E a w Hfa) as Ga.
  pose proof (get_image_hash_fresh E b w Hfb) as Gb.
  rewrite Hka in Ga. rewrite Hkb in Gb.
  split; [exact Ga|]. split; [exact Gb|].
  intros p Hp.
  assert (Hkp : content_key E w p = MD5.hexdigest data) by (destruct Hp; now subst).
  assert (Hfp : hash_cache_fresh E p w) by (destruct Hp; now subst).
  rewrite <- Hkp. repeat split.
  - apply (resolve_body_resolves_to E thumbnail_artifact THUMBNAIL_SIZE THUMBNAIL_QUALITY
             p w Hfp).
  - apply (resolve_body_resolves_to E preview_artifact PREVIEW_SIZE PREVIEW_QUALITY
             p w Hfp).
  - intros Hmiss.
    apply (cached_resolver_resolves_to E 7200 thumbnail_cache set_thumbnail_cache
             thumbnail_artifact THUMBNAIL_SIZE THUMBNAIL_QUALITY p w);
      [reflexivity|reflexivity|exact Hfp|exact Hmiss].
  - intros Hmiss.
    apply (cached_resolver_resolves_to E 7200 preview_cache set_preview_cache
             preview_artifact PREVIEW_SIZE PREVIEW_QUALITY p w);
      [reflexivity|reflexivity|exact Hfp|exact Hmiss].
Qed.

Lemma identical_bytes_same_artifact_witness :
  fst (get_image_hash sample_env foto_a sample_world) =
  fst (get_image_hash sample_env foto_b sample_world) /\
  foto_a <> foto_b /\
  fst (get_or_create_thumbnail sample_env foto_a sample_world) =
    Ret (thumbnail_artifact "5289df737df57326fcdd22597afb1fac") /\
  resolves_to (get_or_create_thumbnail sample_env foto_b sample_world) sample_world foto_b
    (thumbnail_artifact "5289df737df57326fcdd22597afb1fac").
Proof.
  destruct (identical_bytes_same_artifact sample_env sample_world foto_a foto_b
              [x01; x02; x03]) as (Ga & Gb & Hres).
  - vm_compute. reflexivity.
  - vm_compute. reflexivity.
  - intros v c Hl. vm_compute in Hl. discriminate.
  - intros v c Hl. vm_compute in Hl. discriminate.
  - split; [now rewrite Ga, Gb|]. split; [discriminate|]. split.
    + vm_compute. reflexivity.
    + destruct (Hres foto_b (or_intror eq_refl)) as (_ & _ & Ht & _).
      change (MD5.hexdigest [x01; x02; x03]) with "5289df737df57326fcdd22597afb1fac" in Ht.
      apply Ht. intros v c Hl. vm_compute in Hl. discriminate.
Defined.

(** *** Fallback keys and content keys *)

(** The statement that some unreadable path and some readable file get
    the same key from the hasher is false: no such pair exists. *)
Lemma fallback_key_never_collides :
  ~ (exists (E : Env) (w : World) (p q : string),
       p <> q /\ read_file w p = None /\ is_Some (read_file w q) /\
       fst (get_image_hash_body E p w) = fst (get_image_hash_body E q w)).
Proof.
  intros (E & w & p & q & _ & Hp & [data Hq] & Heq).
  rewrite (get_image_hash_body_unreadable E w p Hp) in Heq.
  rewrite (get_image_hash_body_readable E w q data Hq) in Heq.
  simpl in Heq. inversion Heq as [Hk].
  now apply fallback_key_is_not_a_digest in Hk.
Qed.

(** C9, as amended.  The key of an unreadable path is the decimal text of
    a signed 64-bit hash, at most 20 characters; the key of a readable
    file is 32 hexadecimal characters.  The two never coincide. *)
Theorem fallback_key_differs_from_content_keys (E : Env) (w w' : World)
    (p q : string) (data : list byte) :
  read_file w p = None ->
  read_file w' q = Some data ->
  hash_cache_fresh E p w ->
  hash_cache_fresh E q w' ->
  exists kp kq,
    fst (get_image_hash E p w) = Ret kp /\
    fst (get_image_hash E q w') = Ret kq /\
    (String.length kp <= 20)%nat /\ String.length kq = 32%nat /\ kp <> kq.
Proof.
  intros Hp Hq Hfp Hfq.
  exists (str_of_int (py_hash E p)), (MD5.hexdigest data).
  rewrite !get_image_hash_fresh by assumption.
  unfold content_key. rewrite Hp, Hq.
  repeat split.
  - apply str_of_int_length, to_Py_hash_t_range.
  - apply hexdigest_length.
  - apply fallback_key_is_not_a_digest.
Qed.

Lemma fallback_key_differs_from_content_keys_witness :
  fst (get_image_hash sample_env foto_ausente sample_world) <>
  fst (get_image_hash sample_env foto_a sample_world).
Proof.
  destruct (fallback_key_differs_from_content_keys sample_env sample_world sample_world
              foto_ausente foto_a [x01; x02; x03])
    as (kp & kq & Gp & Gq & _ & _ & Hne).
  - vm_compute. reflexivity.
  - vm_compute. reflexivity.
  - intros v c Hl. vm_compute in Hl. discriminate.
  - intros v c Hl. vm_compute in Hl. discriminate.
  - rewrite Gp, Gq. intros Heq. apply Hne. now inversion Heq.
Defined.

(** *** A failed save *)





(** *** The batch scheduler *)

Lemma collect_results_entries (futures : list (Future * string)) :
  forall results,
    Forall catchable futures ->
    collect_results futures results = Ret (results ++ map result_entry futures)%list.
Proof.
  induction futures as [|[future original_path] rest IH]; intros results Hc; simpl.
  - now rewrite app_nil_r.
  - inversion Hc as [|? ? Hhead Hrest]; subst.
    unfold result_entry at 1. simpl.
    destruct (future_result future) as [v|e] eqn:Hres.
    + rewrite IH by assumption. now rewrite <- app_assoc.
    + rewrite (Hhead e) by exact Hres.
      rewrite IH by assumption. now rewrite <- app_assoc.
Qed.

Lemma get_or_create_thumbnail_returns (E : Env) (p : string) (w : World) :
  exists v w', get_or_create_thumbnail E p w = (Ret v, w').
Proof.
  destruct (cached_resolver_returns E 7200 thumbnail_cache set_thumbnail_cache
              thumbnail_artifact THUMBNAIL_SIZE THUMBNAIL_QUALITY p w)
    as (v & w' & Hcall & _); [reflexivity|].
  now exists v, w'.
Qed.

Lemma run_pool_all_returned (E : Env) (paths : list string) (sched : list nat) :
  forall done w,
    all_returned done ->
    all_returned (fst (run_pool (get_or_create_thumbnail E) paths sched done w)).
Proof.
  induction sched as [|i rest IH]; intros done w Hdone; simpl; [assumption|].
  destruct (paths !! i) as [arg|]; [|now apply IH].
  destruct (done !! i) as [r|] eqn:Hi; [now apply IH|].
  destruct (get_or_create_thumbnail_returns E arg w) as (v & w' & ->).
  apply IH. intros j r. rewrite lookup_insert.
  destruct (decide (i = j)); intros Hj; [|now apply (Hdone j)].
  inversion Hj. eauto.
Qed.

Lemma submit_all_catchable (paths : list string) (done : gmap nat (outcome string)) :
  all_returned done -> Forall catchable (submit_all paths done).
Proof.
  intros Hdone. apply Forall_forall. intros [f p] Hin.
  apply elem_of_lookup_imap in Hin as (i & x & Heq & _). inversion Heq; subst.
  intros e He. unfold future_result in He. simpl in He.
  destruct (done !! i) as [r|] eqn:Hi.
  - destruct (Hdone i r Hi) as [v ->]. discriminate.
  - now inversion He.
Qed.

Lemma batch_process_thumbnails_silent_eq (E : Env) (paths : list string)
    (sched : list nat) (w : World) :
  batch_process_thumbnails_silent E paths sched w =
  (Ret (map result_entry
          (submit_all paths (fst (run_pool (get_or_create_thumbnail E) paths sched ∅ w)))),
   snd (run_pool (get_or_create_thumbnail E) paths sched ∅ w)).
Proof.
  unfold batch_process_thumbnails_silent.
  pose proof (run_pool_all_returned E paths sched ∅ w) as Hall.
  destruct (run_pool (get_or_create_thumbnail E) paths sched ∅ w) as [done w'].
  simpl in *. rewrite collect_results_entries; [reflexivity|].
  apply submit_all_catchable, Hall. intros i r Hi. now rewrite lookup_empty in Hi.
Qed.

Lemma result_entry_fst (fp : Future * string) : fst (result_entry fp) = snd fp.
Proof. unfold result_entry. now destruct (future_result (fst fp)). Qed.

Lemma submit_all_paths (paths : list string) (done : gmap nat (outcome string)) :
  map snd (submit_all paths done) = paths.
Proof.
  unfold submit_all.
  change (map snd) with (fmap (M := list) (@snd Future string)).
  rewrite fmap_imap. apply list_eq. intros i.
  rewrite list_lookup_imap. now destruct (paths !! i).
Qed.

(** The pool run over a schedule in two parts. *)
Lemma run_pool_app (fn : string -> M string) (args : list string) (s1 s2 : list nat) :
  forall done w,
    run_pool fn args (s1 ++ s2) done w =
    run_pool fn args s2 (fst (run_pool fn args s1 done w))
      (snd (run_pool fn args s1 done w)).
Proof.
  induction s1 as [|i s1 IH]; intros done w; simpl; [reflexivity|].
  destruct (args !! i) as [arg|]; [|apply IH].
  destruct (done !! i); [apply IH|].
  destruct (fn arg w) as [r w']. apply IH.
Qed.

(** An outcome, once recorded, stays. *)
Lemma run_pool_keeps_done (fn : string -> M string) (args : list string) (sched : list nat)
    (i : nat) (r : outcome string) :
  forall done w,
    done !! i = Some r -> fst (run_pool fn args sched done w) !! i = Some r.
Proof.
  induction sched as [|j sched IH]; intros done w Hi; simpl; [exact Hi|].
  destruct (args !! j) as [arg|]; [|now apply IH].
  destruct (done !! j) eqn:Hj; [now apply IH|].
  destruct (fn arg w) as [r' w']. apply IH.
  rewrite lookup_insert_ne; [exact Hi|]. intros ->. congruence.
Qed.

(** Only scheduled tasks get an outcome. *)
Lemma run_pool_not_scheduled (fn : string -> M string) (args : list string)
    (sched : list nat) (i : nat) :
  i ∉ sched ->
  forall done w, fst (run_pool fn args sched done w) !! i = done !! i.
Proof.
  induction sched as [|j sched IH]; intros Hi done w; simpl; [reflexivity|].
  apply not_elem_of_cons in Hi as [Hij Hi].
  destruct (args !! j) as [arg|]; [|now apply IH].
  destruct (done !! j); [now apply IH|].
  destruct (fn arg w) as [r' w']. rewrite IH by exact Hi.
  now apply lookup_insert_ne.
Qed.

(** The task that completes at position [k] of the schedule, for the
    first time, runs the function on its argument in the world the
    earlier completions left, and its outcome is the one the pool ends
    with. *)
Lemma run_pool_scheduled (fn : string -> M string) (args : list string) (sched : list nat)
    (w : World) (k i : nat) (arg : string) :
  sched !! k = Some i ->
  i ∉ take k sched ->
  args !! i = Some arg ->
  fst (run_pool fn args sched ∅ w) !! i =
  Some (fst (fn arg (snd (run_pool fn args (take k sched) ∅ w)))).
Proof.
  intros Hk Hfirst Harg.
  rewrite <- (take_drop k sched) at 1.
  rewrite run_pool_app.
  pose proof (run_pool_not_scheduled fn args (take k sched) i Hfirst ∅ w) as Hnone.
  rewrite lookup_empty in Hnone.
  rewrite (drop_S _ _ _ Hk). simpl. rewrite Harg, Hnone.
  destruct (fn arg (snd (run_pool fn args (take k sched) ∅ w))) as [r w'] eqn:Hfn.
  simpl. apply run_pool_keeps_done. apply lookup_insert_eq.
Qed.

(** The entry the batch returns at an index. *)
Lemma batch_entry (paths : list string) (done : gmap nat (outcome string))
    (i : nat) (p : string) :
  paths !! i = Some p ->
  map result_entry (submit_all paths done) !! i =
    Some (p, match done !! i with
             | Some (Ret v) => v
             | Some (Raise _) | None => p
             end).
Proof.
  intros Hp.
  change (map result_entry) with (fmap (M := list) result_entry).
  unfold submit_all. rewrite list_lookup_fmap, list_lookup_imap, Hp. simpl.
  unfold result_entry, future_result. simpl.
  destruct (done !! i) as [[v|e]|]; reflexivity.
Qed.

(** C4. Whatever the order in which the tasks complete, and whichever of
    them complete in time, the batch returns, without raising, one pair
    per input path, in the input order: the first components are the
    input paths, and the second component at index [i] is what
    [get_or_create_thumbnail] returned for the path at index [i] when its
    task ran (in the world the earlier completions left), or the path
    itself when the task did not complete in time. *)
Theorem batch_preserves_order (E : Env) (paths : list string) (sched : list nat)
    (w : World) :
  exists results w',
    batch_process_thumbnails_silent E paths sched w = (Ret results, w') /\
    map fst results = paths /\
    List.length results = List.length paths /\
    (forall i p, paths !! i = Some p -> i ∉ sched -> results !! i = Some (p, p)) /\
    (forall k i p,
       sched !! k = Some i -> i ∉ take k sched -> paths !! i = Some p ->
       exists artifact,
         fst (get_or_create_thumbnail E p
                (snd (run_pool (get_or_create_thumbnail E) paths (take k sched) ∅ w)))
         = Ret artifact /\
         results !! i = Some (p, artifact)).
Proof.
  rewrite batch_process_thumbnails_silent_eq. eexists _, _.
  split; [reflexivity|].
  assert (Hfst : map fst (map result_entry
                   (submit_all paths
                      (fst (run_pool (get_or_create_thumbnail E) paths sched ∅ w)))) = paths).
  { rewrite map_map. erewrite map_ext by apply result_entry_fst. apply submit_all_paths. }
  split; [exact Hfst|].
  split; [rewrite length_map; unfold submit_all; apply length_imap|].
  split.
  - intros i p Hp Hi. rewrite (batch_entry _ _ _ _ Hp).
    rewrite run_pool_not_scheduled by exact Hi. now rewrite lookup_empty.
  - intros k i p Hk Hfirst Hp.
    destruct (get_or_create_thumbnail_returns E p
                (snd (run_pool (get_or_create_thumbnail E) paths (take k sched) ∅ w)))
      as (artifact & w1 & Hrun).
    exists artifact. rewrite Hrun. split; [reflexivity|].
    rewrite (batch_entry _ _ _ _ Hp).
    rewrite (run_pool_scheduled _ _ _ _ _ _ _ Hk Hfirst Hp), Hrun. reflexivity.
Qed.

Lemma batch_preserves_order_witness :
  exists results,
    fst (batch_process_thumbnails_silent sample_env [foto_a; foto_rota; foto_b] [2; 0]%nat
           sample_world) = Ret results /\
    results !! 0%nat =
      Some (foto_a, "cache/thumbnails/5289df737df57326fcdd22597afb1fac_thumb.webp") /\
    results !! 1%nat = Some (foto_rota, foto_rota) /\
    results !! 2%nat =
      Some (foto_b, "cache/thumbnails/5289df737df57326fcdd22597afb1fac_thumb.webp").
Proof.
  destruct (batch_preserves_order sample_env [foto_a; foto_rota; foto_b] [2; 0]%nat
              sample_world) as (results & w' & Hrun & _ & _ & Hout & Hin).
  exists results. rewrite Hrun. split; [reflexivity|].
  split; [|split].
  - destruct (Hin 1%nat 0%nat foto_a eq_refl) as (artifact & Hart & Hres);
      [|reflexivity|].
    + simpl. intros H. apply list_elem_of_In in H. simpl in H.
      destruct H as [H|H]; [discriminate|exact H].
    + vm_compute in Hart. inversion Hart; subst artifact. exact Hres.
  - apply Hout; [reflexivity|].
    intros H. apply list_elem_of_In in H. simpl in H.
    repeat (destruct H as [H|H]; [discriminate|]). exact H.
  - destruct (Hin 0%nat 2%nat foto_b eq_refl) as (artifact & Hart & Hres);
      [|reflexivity|].
    + simpl. intros H. apply list_elem_of_In in H. exact H.
    + vm_compute in Hart. inversion Hart; subst artifact. exact Hres.
Defined.

(** C5. The collecting loop turns a list of futures, none of which raises
    outside [Exception], into exactly one entry per future, each decided
    by its own future: the path with the value returned, or the path
    twice when the future timed out or raised.  For the batch itself no
    run raises: it returns these entries for the futures of the pool, so
    that the entry of a path is (path, path) when its task has not
    finished in time, and (path, value) when it returned a value. *)
Theorem batch_failure_is_per_item (E : Env) (paths : list string) (sched : list nat)
    (w : World) :
  (forall futures : list (Future * string),
     Forall catchable futures ->
     collect_results futures [] = Ret (map result_entry futures)) /\
  let done := fst (run_pool (get_or_create_thumbnail E) paths sched ∅ w) in
  fst (batch_process_thumbnails_silent E paths sched w) =
    Ret (map result_entry (submit_all paths done)) /\
  forall i p,
    paths !! i = Some p ->
    map result_entry (submit_all paths done) !! i =
      Some (p, match done !! i with
               | Some (Ret v) => v
               | Some (Raise _) | None => p
               end).
Proof.
  split; [|split].
  - intros futures Hc. now rewrite collect_results_entries.
  - now rewrite batch_process_thumbnails_silent_eq.
  - intros i p Hp.
    change (map result_entry) with (fmap (M := list) result_entry).
    unfold submit_all. rewrite list_lookup_fmap, list_lookup_imap, Hp. simpl.
    unfold result_entry, future_result. simpl.
    destruct (fst (run_pool (get_or_create_thumbnail E) paths sched ∅ w) !! i)
      as [[v|e]|]; reflexivity.
Qed.

Lemma batch_failure_is_per_item_witness :
  collect_results
    [(Some (Ret "cache/thumbnails/k1_thumb.webp"), "a.jpg");
     (None, "b.jpg");
     (Some (Raise ValueError), "c.jpg");
     (Some (Ret "cache/thumbnails/k4_thumb.webp"), "d.jpg")] [] =
  Ret [("a.jpg", "cache/thumbnails/k1_thumb.webp"); ("b.jpg", "b.jpg");
       ("c.jpg", "c.jpg"); ("d.jpg", "cache/thumbnails/k4_thumb.webp")].
Proof.
  refine (proj1 (batch_failure_is_per_item sample_env [] [] sample_world) _ _).
  repeat constructor; intros e He; inversion He; reflexivity.
Defined.

(** *** The gallery lister *)

Lemma ascii_compare_lt_trans (x y z : ascii) :
  Ascii.compare x y = Lt -> Ascii.compare y z = Lt -> Ascii.compare x z = Lt.
Proof.
  unfold Ascii.compare. rewrite !N.compare_lt_iff. lia.
Qed.

#[local] Instance str_le_trans : Transitive str_le.
Proof.
  unfold str_le, String.leb. intros a.
  induction a as [|x a IH]; intros [|y b] [|z c]; simpl; try done.
  destruct (Ascii.compare x y) eqn:Hxy; try done;
    destruct (Ascii.compare y z) eqn:Hyz; try done.
  - apply Ascii.compare_eq_iff in Hxy, Hyz. subst.
    replace (Ascii.compare z z) with Eq
      by (symmetry; unfold Ascii.compare; apply N.compare_refl).
    apply IH.
  - apply Ascii.compare_eq_iff in Hxy. subst. now rewrite Hyz.
  - apply Ascii.compare_eq_iff in Hyz. subst. now rewrite Hxy.
  - now rewrite (ascii_compare_lt_trans x y z).
Qed.

#[local] Instance str_le_total : Total str_le.
Proof. intros a b. apply String.leb_total. Qed.

Lemma es_imagen_iff (archivo : string) :
  existsb (fun ext => endswith (lower archivo) ("." +:+ lower ext)) extensiones = true <->
  has_image_extension archivo.
Proof.
  unfold has_image_extension, extensiones. simpl existsb.
  change (lower "jpg") with "jpg". change (lower "JPG") with "jpg".
  change (lower "jpeg") with "jpeg". change (lower "JPEG") with "jpeg".
  change (lower "png") with "png". change (lower "PNG") with "png".
  change (lower "webp") with "webp". change (lower "WEBP") with "webp".
  rewrite !orb_true_iff. split.
  - intros H. repeat (destruct H as [H|H]); try discriminate;
      eexists; (split; [|exact H]); set_solver.
  - intros (ext & Hin & H).
    repeat (apply elem_of_cons in Hin as [->|Hin]; [tauto|]).
    now apply elem_of_nil in Hin.
Qed.

Lemma elem_of_fold_add_if_image (ruta : string) (archivos : list string) :
  forall (acc : gset string) (x : string),
    x ∈ fold_left (add_if_image ruta) archivos acc <->
    x ∈ acc \/ exists archivo, archivo ∈ archivos /\ has_image_extension archivo /\
                               x = ruta_de ruta archivo.
Proof.
  induction archivos as [|a rest IH]; intros acc x; simpl.
  - split; [auto|]. intros [H|(archivo & Hin & _)]; [assumption|].
    now apply elem_of_nil in Hin.
  - rewrite IH. unfold add_if_image. fold (ruta_de ruta a).
    destruct (existsb _ extensiones) eqn:Himg.
    + apply es_imagen_iff in Himg. rewrite elem_of_union, elem_of_singleton. split.
      * intros [[->|H]|(archivo & Hin & Hext & ->)]; [right|auto|right].
        -- exists a. split; [left|auto].
        -- exists archivo. split; [now right|auto].
      * intros [H|(archivo & Hin & Hext & ->)]; [auto|].
        apply elem_of_cons in Hin as [->|Hin]; [auto|].
        right. eauto.
    + split.
      * intros [H|(archivo & Hin & Hext & ->)]; [auto|].
        right. exists archivo. split; [now right|auto].
      * intros [H|(archivo & Hin & Hext & ->)]; [auto|].
        apply elem_of_cons in Hin as [->|Hin].
        -- apply es_imagen_iff in Hext. congruence.
        -- right. eauto.
Qed.

Lemma obtener_imagenes_galeria_body_missing (nombre : string) (w : World) :
  path_exists w ("imagenes/Galerias/" +:+ nombre) = false ->
  obtener_imagenes_galeria_body nombre w = (Ret [], w).
Proof.
  intros Hex. unfold obtener_imagenes_galeria_body, bind, os_path_exists.
  now rewrite Hex.
Qed.

Lemma obtener_imagenes_galeria_body_listed (nombre : string) (w : World)
    (archivos : list string) :
  directories w !! ("imagenes/Galerias/" +:+ nombre) = Some archivos ->
  obtener_imagenes_galeria_body nombre w =
  (Ret (sorted (elements (fold_left (add_if_image ("imagenes/Galerias/" +:+ nombre))
                            archivos ∅))), w).
Proof.
  intros Hdir. unfold obtener_imagenes_galeria_body, bind, os_path_exists, os_listdir.
  assert (Hex : path_exists w ("imagenes/Galerias/" +:+ nombre) = true).
  { unfold path_exists. rewrite (bool_decide_eq_true_2 (is_Some (directories w !! _)));
      [apply orb_true_r|eauto]. }
  now rewrite Hex, Hdir.
Qed.

(** Within 30 minutes of a listing the lister answers from its memo
    table, whatever the directory holds by then: ten minutes after the
    listing of [sample_world], with [b.jpg] deleted, the list still has
    [foto_b]; and with the whole gallery directory removed, the list is
    the old one, not the empty list. *)
Lemma stale_listing_is_returned :
  directories after_delete_world !! "imagenes/Galerias/boda" =
    Some ["notes.txt"; "a.jpg"; "photo1.jpg"; "photo1.JPG"; "rota.jpg";
          "fatal.jpg"; "c.WebP"; "jpg"] /\
  path_exists after_delete_world foto_b = false /\
  fst (obtener_imagenes_galeria "boda" after_delete_world) =
    Ret [foto_a; foto_b;
         "imagenes/Galerias/boda/c.WebP"; foto_fatal;
         "imagenes/Galerias/boda/photo1.JPG"; "imagenes/Galerias/boda/photo1.jpg";
         foto_rota] /\
  path_exists after_rmdir_world "imagenes/Galerias/boda" = false /\
  fst (obtener_imagenes_galeria "boda" after_rmdir_world) =
    Ret [foto_a; foto_b;
         "imagenes/Galerias/boda/c.WebP"; foto_fatal;
         "imagenes/Galerias/boda/photo1.JPG"; "imagenes/Galerias/boda/photo1.jpg";
         foto_rota].
Proof. vm_compute. repeat split; reflexivity. Qed.

(** C6, as amended.  When no outdated listing is memoised (an entry of
    the memo table that still answers holds what the directory gives
    now), the lister returns the empty list when the gallery path does
    not exist; and for a gallery directory it returns a list in ascending
    order, without duplicates, whose members are exactly the paths of the
    entries whose name ends, compared in lower case, with a dot and one
    of jpg, jpeg, png, webp. *)
Theorem obtener_imagenes_galeria_lists_images (nombre : string) (w : World) :
  cache_fresh 1800 gallery_cache obtener_imagenes_galeria_body nombre w ->
  (path_exists w ("imagenes/Galerias/" +:+ nombre) = false ->
   fst (obtener_imagenes_galeria nombre w) = Ret []) /\
  (forall archivos,
     directories w !! ("imagenes/Galerias/" +:+ nombre) = Some archivos ->
     exists imagenes,
       fst (obtener_imagenes_galeria nombre w) = Ret imagenes /\
       StronglySorted str_le imagenes /\
       NoDup imagenes /\
       forall x, x ∈ imagenes <->
                 exists archivo, archivo ∈ archivos /\ has_image_extension archivo /\
                                 x = ruta_de ("imagenes/Galerias/" +:+ nombre) archivo).
Proof.
  intros Hfresh. unfold obtener_imagenes_galeria.
  rewrite cache_data_value by exact Hfresh. split.
  - intros Hex. now rewrite obtener_imagenes_galeria_body_missing.
  - intros archivos Hdir.
    rewrite (obtener_imagenes_galeria_body_listed nombre w archivos Hdir). simpl.
    eexists. split; [reflexivity|]. unfold sorted. split; [|split].
    + apply StronglySorted_merge_sort; apply _.
    + rewrite merge_sort_Permutation. apply NoDup_elements.
    + intros x. rewrite merge_sort_Permutation, elem_of_elements.
      rewrite elem_of_fold_add_if_image. split; [|auto].
      intros [H|H]; [|exact H]. now apply not_elem_of_empty in H.
Qed.

Lemma obtener_imagenes_galeria_lists_images_witness :
  exists imagenes,
    fst (obtener_imagenes_galeria "boda" sample_world) = Ret imagenes /\
    StronglySorted str_le imagenes /\
    "imagenes/Galerias/boda/photo1.JPG" ∈ imagenes.
Proof.
  assert (Hfresh : cache_fresh 1800 gallery_cache obtener_imagenes_galeria_body
                     "boda" sample_world).
  { intros v c Hl. vm_compute in Hl. discriminate. }
  destruct (obtener_imagenes_galeria_lists_images "boda" sample_world Hfresh) as [_ H].
  destruct (H ["b.jpg"; "notes.txt"; "a.jpg"; "photo1.jpg"; "photo1.JPG"; "rota.jpg";
               "fatal.jpg"; "c.WebP"; "jpg"])
    as (imagenes & Heq & Hsorted & _ & Hmem); [vm_compute; reflexivity|].
  exists imagenes. split; [exact Heq|]. split; [exact Hsorted|].
  apply Hmem. exists "photo1.JPG". split; [apply list_elem_of_In; simpl; tauto|].
  split; [|vm_compute; reflexivity].
  exists "jpg". split; [apply list_elem_of_In; simpl; tauto|vm_compute; reflexivity].
Defined.

Example obtener_imagenes_galeria_boda :
  fst (obtener_imagenes_galeria "boda" sample_world) =
  Ret [ "imagenes/Galerias/boda/a.jpg"; "imagenes/Galerias/boda/b.jpg";
        "imagenes/Galerias/boda/c.WebP"; "imagenes/Galerias/boda/fatal.jpg";
        "imagenes/Galerias/boda/photo1.JPG"; "imagenes/Galerias/boda/photo1.jpg";
        "imagenes/Galerias/boda/rota.jpg" ] /\
  fst (obtener_imagenes_galeria "retratos" sample_world) = Ret [].
Proof. vm_compute. split; reflexivity. Qed.

Example batch_out_of_order :
  fst (batch_process_thumbnails_silent sample_env [foto_a; foto_rota; foto_b] [2; 0]%nat
         sample_world) =
  Ret [ (foto_a, "cache/thumbnails/5289df737df57326fcdd22597afb1fac_thumb.webp");
        (foto_rota, foto_rota);
        (foto_b, "cache/thumbnails/5289df737df57326fcdd22597afb1fac_thumb.webp") ].
Proof. vm_compute. reflexivity. Qed.

(** *** Pagination *)

Lemma total_pages_bounds (n : Z) :
  0 < n ->
  IMAGES_PER_PAGE * ((n + IMAGES_PER_PAGE - 1) / IMAGES_PER_PAGE - 1) < n /\
  n <= IMAGES_PER_PAGE * ((n + IMAGES_PER_PAGE - 1) / IMAGES_PER_PAGE).
Proof. unfold IMAGES_PER_PAGE. intros Hn. Z.to_euclidean_division_equations. lia. Qed.

Lemma py_slice_nonempty {A} (l : list A) (a b : Z) :
  0 <= a < b -> a < Z.of_nat (List.length l) -> py_slice l a b <> [].
Proof.
  intros Hab Hlen. unfold py_slice, py_index.
  destruct (Z.ltb_spec a 0); [lia|]. destruct (Z.ltb_spec b 0); [lia|].
  intros Hnil. apply (f_equal (@List.length A)) in Hnil.
  rewrite length_take, length_drop in Hnil. simpl in Hnil. lia.
Qed.

Lemma mostrar_galeria_step (nombre : string) (imagenes : list string) (click : Click)
    (ss : gmap string Z) :
  page_state_ok nombre (Z.of_nat (List.length imagenes)) ss ->
  page_state_ok nombre (Z.of_nat (List.length imagenes))
    (fst (mostrar_galeria_optimizada_final nombre imagenes click ss)) /\
  forall v, snd (mostrar_galeria_optimizada_final nombre imagenes click ss) = Some v ->
            page_in_range v.
Proof.
  intros Hok. unfold mostrar_galeria_optimizada_final.
  destruct imagenes as [|x rest] eqn:Himg; [split; [exact Hok|discriminate]|].
  rewrite <- Himg in *.
  set (n := Z.of_nat (List.length imagenes)) in *.
  assert (Hn : 0 < n) by (unfold n; rewrite Himg; simpl; lia).
  set (key := page_key nombre) in *.
  set (ss0 := match ss !! key with None => <[key := 0]> ss | Some _ => ss end).
  set (pg := default 0 (ss0 !! key)).
  assert (Hss0 : ss0 !! key = Some pg /\ 0 <= pg /\ IMAGES_PER_PAGE * pg < n).
  { unfold pg, ss0. destruct (ss !! key) as [p0|] eqn:Hk.
    - rewrite Hk. simpl. split; [reflexivity|]. now apply Hok.
    - rewrite lookup_insert_eq. simpl. unfold IMAGES_PER_PAGE. repeat split; lia. }
  destruct Hss0 as (Hpg & Hpg0 & Hpgn).
  pose proof (total_pages_bounds n Hn) as [Htp1 Htp2].
  set (tp := (n + IMAGES_PER_PAGE - 1) / IMAGES_PER_PAGE) in *.
  assert (Hset : forall v, 0 <= v -> IMAGES_PER_PAGE * v < n ->
                 page_state_ok nombre n (<[key := v]> ss0)).
  { intros v Hv0 Hvn q. fold key. rewrite lookup_insert_eq. intros Hq.
    inversion Hq; subst. split; assumption. }
  assert (Hss0 : page_state_ok nombre n ss0).
  { intros q. fold key. rewrite Hpg. intros Hq. inversion Hq; subst. split; assumption. }
  assert (Hdel : page_state_ok nombre n (delete key ss0)).
  { intros q. fold key. rewrite lookup_delete_eq. discriminate. }
  assert (Hview : page_in_range
            {| current_page := pg; total_pages := tp; total_imagenes := n;
               start_idx := pg * IMAGES_PER_PAGE;
               end_idx := Z.min (pg * IMAGES_PER_PAGE + IMAGES_PER_PAGE) n;
               imagenes_pagina :=
                 py_slice imagenes (pg * IMAGES_PER_PAGE)
                   (Z.min (pg * IMAGES_PER_PAGE + IMAGES_PER_PAGE) n) |}).
  { unfold page_in_range. simpl. unfold IMAGES_PER_PAGE in *.
    repeat split; try lia.
    apply py_slice_nonempty; fold n; lia. }
  unfold IMAGES_PER_PAGE in Htp1, Htp2, Hpgn.
  repeat match goal with
         | |- context [if ?b then _ else _] => destruct b eqn:?
         end; simpl;
    (split; [|intros v Hv; now simplify_eq]);
    repeat match goal with
           | H : _ && _ = true |- _ => apply andb_true_iff in H as [? ?]
           | H : st_button _ _ _ = true |- _ =>
               unfold st_button in H; apply andb_true_iff in H as [_ H];
               apply negb_true_iff in H
           | H : (_ >? _) = true |- _ => apply Z.gtb_lt in H
           | H : (_ >=? _) = false |- _ => rewrite Z.geb_leb in H; apply Z.leb_gt in H
           | H : (_ =? _) = false |- _ => apply Z.eqb_neq in H
           end;
    try assumption; apply Hset; unfold IMAGES_PER_PAGE; lia.
Qed.


Lemma page_state_ok_mono (nombre : string) (m n : Z) (ss : gmap string Z) :
  m <= n -> page_state_ok nombre m ss -> page_state_ok nombre n ss.
Proof. intros Hmn Hok pg Hpg. destruct (Hok pg Hpg). split; lia. Qed.

Lemma browse_in_range (nombre : string) (runs : list (list string * Click)) :
  forall (m : Z) (ss : gmap string Z),
    page_state_ok nombre m ss -> never_shrinks m runs ->
    Forall page_in_range (browse nombre runs ss).
Proof.
  induction runs as [|[imagenes click] rest IH]; intros m ss Hok Hruns; simpl.
  - constructor.
  - destruct Hruns as [Hm Hrest].
    pose proof (mostrar_galeria_step nombre imagenes click ss
                  (page_state_ok_mono nombre m _ ss Hm Hok)) as [Hok' Hview].
    destruct (mostrar_galeria_optimizada_final nombre imagenes click ss) as [ss' [v|]];
      simpl in *.
    + constructor; [now apply Hview|]. eapply IH; eassumption.
    + eapply IH; eassumption.
Qed.

(** The statement that the stored page index always stays within the
    pages is false when the listing shrinks between two runs: with 17
    images the last page is page 2; when the next run lists 8 images,
    there is one page, no control is shown, the stored index is still 2
    and the window from 16 to 8 is empty. *)
Lemma page_index_out_of_range_after_shrink :
  exists v,
    last (browse "boda"
            [(fotos 17, NoClick); (fotos 17, ClickUltima); (fotos 17, NoClick);
             (fotos 8, NoClick)] ∅) = Some v /\
    current_page v = 2 /\ total_pages v = 1 /\
    start_idx v = 16 /\ end_idx v = 8 /\ imagenes_pagina v = [] /\
    ~ page_in_range v.
Proof.
  eexists. split; [vm_compute; reflexivity|]. simpl.
  repeat split. unfold page_in_range. simpl. lia.
Qed.

(** C10, as amended.  In a session that starts without a stored index
    and in which the listing of the gallery never gets shorter from one
    run to the next, every page shown has its index within
    [0, total_pages - 1], and its window [start_idx, end_idx) is a
    non-empty part of the list, whatever buttons are clicked. *)
Theorem page_index_stays_in_range (nombre : string)
    (runs : list (list string * Click)) (session_state : gmap string Z) :
  session_state !! page_key nombre = None ->
  never_shrinks 0 runs ->
  Forall page_in_range (browse nombre runs session_state).
Proof.
  intros Hnone Hruns. apply (browse_in_range nombre runs 0 session_state); [|exact Hruns].
  intros pg Hpg. congruence.
Qed.

Lemma page_index_stays_in_range_witness :
  Forall page_in_range
    (browse "boda"
       [(fotos 17, NoClick); (fotos 17, ClickSiguiente); (fotos 17, ClickUltima);
        (fotos 17, NoClick); (fotos 20, ClickAnterior); (fotos 20, NoClick);
        (fotos 20, ClickVolver); (fotos 20, ClickPrimera)] ∅).
Proof.
  apply page_index_stays_in_range.
  - apply lookup_empty.
  - vm_compute. intuition discriminate.
Defined.

(** ** Further properties of the code *)
(** *** The transcoder and the files *)

Lemma optimize_image_for_web_frame (E : Env) (src dst : string) (box : Z * Z)
    (q : Z) (fmt : string) (w w' : World) (r : outcome bool) :
  optimize_image_for_web E src dst box q fmt w = (r, w') ->
  same_except_file dst w w'.
Proof.
  unfold same_except_file. run_transcoder; intros Hrun; simplify_eq/=;
    repeat split; try reflexivity; intros p Hp; now rewrite ?lookup_insert_ne.
Qed.


(** X2. When the source cannot be read, or its bytes cannot be decoded
    (the decoder raises an [Exception]), [optimize_image_for_web] returns
    false and no file is created or changed. *)
Theorem optimize_image_for_web_bad_source (E : Env) (src dst : string)
    (box : Z * Z) (q : Z) (fmt : string) (w : World) :
  (read_file w src = None \/
   exists data e, read_file w src = Some data /\ Image_open E data = Raise e /\
                  is_Exception e = true) ->
  fst (optimize_image_for_web E src dst box q fmt w) = Ret false /\
  files (snd (optimize_image_for_web E src dst box q fmt w)) = files w.
Proof.
  intros [Hr|(data & e & Hr & Hopen & He)];
    unfold optimize_image_for_web, transcode_steps, traced, try_except, bind, open_rb, lift;
    rewrite Hr; simpl; [|rewrite Hopen, He]; split; reflexivity.
Qed.

Lemma optimize_image_for_web_bad_source_witness :
  fst (optimize_image_for_web sample_env foto_ausente "cache/thumbnails/x_thumb.webp"
         THUMBNAIL_SIZE THUMBNAIL_QUALITY "WebP" sample_world) = Ret false /\
  fst (optimize_image_for_web sample_env foto_rota "cache/thumbnails/x_thumb.webp"
         THUMBNAIL_SIZE THUMBNAIL_QUALITY "WebP" sample_world) = Ret false.
Proof.
  split.
  - refine (proj1 (optimize_image_for_web_bad_source sample_env foto_ausente _ _ _ _
                     sample_world _)).
    left. vm_compute. reflexivity.
  - refine (proj1 (optimize_image_for_web_bad_source sample_env foto_rota _ _ _ _
                     sample_world _)).
    right. exists [], UnidentifiedImageError. repeat split; vm_compute; reflexivity.
Defined.

(** *** The resolvers and the files *)


Lemma resolve_body_effect (E : Env) (art : string -> string) (box : Z * Z) (q : Z)
    (p : string) (w : World) :
  exists v w',
    resolve_body E art box q p w = (Ret v, w') /\
    keeps_existing w w' /\
    now w' = now w /\
    (v = p \/ path_exists w' v = true).
Proof.
  rewrite resolve_body_unfold.
  destruct (resolve_steps_cases E art box q p w)
    as (key & c & created & _ & _ & _ & [[Hex Hrs]|[Hex (ro & w' & Hopt & Hrs)]]);
    rewrite Hrs.
  - eexists _, _. split; [reflexivity|]. repeat split. now right.
  - pose proof (optimize_image_for_web_frame _ _ _ _ _ _ _ _ _ Hopt)
      as (Hfiles & Hunr & Hdirs & _ & Hnow & _).
    simpl in Hfiles, Hunr, Hdirs, Hnow.
    assert (Hkeep : keeps_existing w w').
    { repeat split; try assumption. intros p0 Hp0. apply Hfiles. congruence. }
    destruct ro as [[|]|e]; simpl; eexists _, _; (split; [reflexivity|]);
      (split; [exact Hkeep|]); (split; [exact Hnow|]); try (now left).
    right. apply optimize_image_for_web_true in Hopt as (data & encoded & _ & ->).
    apply path_exists_file with (data := encoded). simpl. apply lookup_insert_eq.
Qed.




(** X4. When no memoised entry answers, what a resolver returns is the
    source path or a path that exists when the call returns. *)
Theorem resolver_result_exists (E : Env) (p : string) (w : World) :
  (cache_miss 7200 thumbnail_cache p w ->
   fst (get_or_create_thumbnail E p w) = Ret p \/
   exists v, fst (get_or_create_thumbnail E p w) = Ret v /\
             path_exists (snd (get_or_create_thumbnail E p w)) v = true) /\
  (cache_miss 7200 preview_cache p w ->
   fst (get_or_create_preview E p w) = Ret p \/
   exists v, fst (get_or_create_preview E p w) = Ret v /\
             path_exists (snd (get_or_create_preview E p w)) v = true).
Proof.
  split; intros Hmiss.
  - unfold get_or_create_thumbnail.
    destruct (resolve_body_effect E thumbnail_artifact THUMBNAIL_SIZE THUMBNAIL_QUALITY p w)
      as (v & w' & Hbody & _ & _ & Hv).
    rewrite <- get_or_create_thumbnail_body_eq in Hbody.
    destruct (cache_data_cases 7200 thumbnail_cache set_thumbnail_cache
                (get_or_create_thumbnail_body E) p w)
      as [(v0 & t & Hl & Hlive & _)|[(v0 & w0 & Hb & ->)|(e & w0 & Hb & _)]].
    + specialize (Hmiss _ _ Hl). lia.
    + rewrite Hbody in Hb. inversion Hb; subst. simpl.
      destruct Hv as [->|Hv]; [now left|right; eauto].
    + rewrite Hbody in Hb. discriminate.
  - unfold get_or_create_preview.
    destruct (resolve_body_effect E preview_artifact PREVIEW_SIZE PREVIEW_QUALITY p w)
      as (v & w' & Hbody & _ & _ & Hv).
    rewrite <- get_or_create_preview_body_eq in Hbody.
    destruct (cache_data_cases 7200 preview_cache set_preview_cache
                (get_or_create_preview_body E) p w)
      as [(v0 & t & Hl & Hlive & _)|[(v0 & w0 & Hb & ->)|(e & w0 & Hb & _)]].
    + specialize (Hmiss _ _ Hl). lia.
    + rewrite Hbody in Hb. inversion Hb; subst. simpl.
      destruct Hv as [->|Hv]; [now left|right; eauto].
    + rewrite Hbody in Hb. discriminate.
Qed.

Lemma resolver_result_exists_witness :
  exists v, fst (get_or_create_thumbnail sample_env foto_a sample_world) = Ret v /\
            path_exists (snd (get_or_create_thumbnail sample_env foto_a sample_world)) v = true.
Proof.
  destruct (resolver_result_exists sample_env foto_a sample_world) as [H _].
  destruct H as [H|H].
  - intros v c Hl. vm_compute in Hl. discriminate.
  - vm_compute in H. discriminate.
  - exact H.
Defined.

Lemma optimize_image_for_web_unreadable (E : Env) (src dst : string) (box : Z * Z)
    (q : Z) (fmt : string) (w : World) :
  read_file w src = None ->
  optimize_image_for_web E src dst box q fmt w =
  (Ret false, set_transcodes (transcodes w ++ [(src, dst, false)])%list w).
Proof.
  intros Hr.
  unfold optimize_image_for_web, transcode_steps, traced, try_except, bind, open_rb.
  now rewrite Hr.
Qed.

(** X5. For a source that cannot be read, with no memoised answer and no
    file at the path composed from its fallback key, the thumbnail
    resolver returns the source path itself and creates no file. *)
Theorem resolver_missing_source (E : Env) (p : string) (w : World) :
  read_file w p = None ->
  hash_cache_fresh E p w ->
  cache_miss 7200 thumbnail_cache p w ->
  path_exists w (thumbnail_artifact (str_of_int (py_hash E p))) = false ->
  fst (get_or_create_thumbnail E p w) = Ret p /\
  files (snd (get_or_create_thumbnail E p w)) = files w.
Proof.
  intros Hr Hfresh Hmiss Hex.
  assert (Hkey : content_key E w p = str_of_int (py_hash E p))
    by (unfold content_key; now rewrite Hr).
  assert (Hbody : exists w', get_or_create_thumbnail_body E p w = (Ret p, w') /\
                             files w' = files w).
  { rewrite get_or_create_thumbnail_body_eq, resolve_body_unfold.
    destruct (resolve_steps_cases E thumbnail_artifact THUMBNAIL_SIZE THUMBNAIL_QUALITY p w)
      as (key & c & created & _ & _ & Hk & [[Hex' _]|[_ (ro & w' & Hopt & Hrs)]]).
    - rewrite (Hk Hfresh), Hkey in Hex'. congruence.
    - rewrite optimize_image_for_web_unreadable in Hopt by exact Hr.
      inversion Hopt; subst. rewrite Hrs. simpl. eauto. }
  destruct Hbody as (w' & Hbody & Hfiles).
  unfold get_or_create_thumbnail.
  destruct (cache_data_cases 7200 thumbnail_cache set_thumbnail_cache
              (get_or_create_thumbnail_body E) p w)
    as [(v0 & t & Hl & Hlive & _)|[(v0 & w0 & Hb & ->)|(e & w0 & Hb & _)]].
  - specialize (Hmiss _ _ Hl). lia.
  - rewrite Hbody in Hb. inversion Hb; subst. split; [reflexivity|exact Hfiles].
  - rewrite Hbody in Hb. discriminate.
Qed.

Lemma resolver_missing_source_witness :
  fst (get_or_create_thumbnail sample_env foto_ausente sample_world) = Ret foto_ausente.
Proof.
  refine (proj1 (resolver_missing_source sample_env foto_ausente sample_world _ _ _ _)).
  - vm_compute. reflexivity.
  - intros v c Hl. vm_compute in Hl. discriminate.
  - intros v c Hl. vm_compute in Hl. discriminate.
  - vm_compute. reflexivity.
Defined.

(** *** Resolving a preview twice *)

(** What a call of the preview resolver that created its artifact did. *)
Lemma get_or_create_preview_created (E : Env) (p art : string) (w w1 : World) :
  hash_cache_fresh E p w ->
  get_or_create_preview E p w = (Ret art, w1) ->
  transcodes w1 = (transcodes w ++ [(p, art, true)])%list ->
  exists c created data encoded tc,
    art = preview_artifact (content_key E w p) /\
    c !! p = Some (content_key E w p, created) /\
    read_file w p = Some data /\
    path_exists w art = false /\
    w1 = set_preview_cache (<[p := (art, now w)]> tc)
           (set_transcodes (transcodes w ++ [(p, art, true)])%list
              (set_files (<[art := encoded]> (files w)) (set_hash_cache c w))).
Proof.
  intros Hfresh Hcall Htrace. unfold get_or_create_preview in Hcall.
  destruct (cache_data_cases 7200 preview_cache set_preview_cache
              (get_or_create_preview_body E) p w)
    as [(v & t & _ & _ & Heq)|[(v & w' & Hb & Heq)|(e & w' & _ & Heq)]];
    rewrite Heq in Hcall; inversion Hcall; subst; clear Hcall.
  { now apply app_one_neq in Htrace. }
  simpl in Htrace.
  rewrite get_or_create_preview_body_eq, resolve_body_unfold in Hb.
  destruct (resolve_steps_cases E preview_artifact PREVIEW_SIZE PREVIEW_QUALITY p w)
    as (key & c & created & Hc & _ & Hk & [[Hex Hrs]|[Hex (ro & w2 & Hopt & Hrs)]]);
    rewrite Hrs in Hb.
  { inversion Hb; subst. simpl in Htrace. now apply app_one_neq in Htrace. }
  specialize (Hk Hfresh). subst key.
  pose proof (optimize_image_for_web_trace _ _ _ _ _ _ _ _ _ Hopt) as [Htr _].
  simpl in Htr.
  assert (Hw2 : w2 = w') by (destruct ro as [[|]|e]; simpl in Hb; now inversion Hb).
  subst w2. rewrite Htr in Htrace. apply app_inj_tail in Htrace as [_ Hlast].
  inversion Hlast as [[Hart Hflag]].
  destruct ro as [[|]|e]; try discriminate. clear Hb Hlast Hflag.
  apply optimize_image_for_web_true in Hopt as (data & encoded & Hread & ->).
  exists c, created, data, encoded. eexists.
  repeat split; eauto.
Qed.

(** A later call in a world that holds the artifact. *)
Lemma get_or_create_preview_again (E : Env) (p key : string) (w : World) :
  (forall v t, preview_cache w !! p = Some (v, t) -> v = preview_artifact key) ->
  (forall k t, hash_cache w !! p = Some (k, t) -> k = key) ->
  content_key E w p = key ->
  path_exists w (preview_artifact key) = true ->
  fst (get_or_create_preview E p w) = Ret (preview_artifact key) /\
  transcodes (snd (get_or_create_preview E p w)) = transcodes w /\
  files (snd (get_or_create_preview E p w)) = files w.
Proof.
  intros Htc Hhc Hkey Hex. unfold get_or_create_preview.
  destruct (resolve_body_hit E preview_artifact PREVIEW_SIZE PREVIEW_QUALITY
              p key w Hhc Hkey Hex) as [c Hbody].
  rewrite <- get_or_create_preview_body_eq in Hbody.
  destruct (cache_data_cases 7200 preview_cache set_preview_cache
              (get_or_create_preview_body E) p w)
    as [(v & t & Hl & _ & ->)|[(v & w' & Hb & ->)|(e & w' & Hb & ->)]]; simpl.
  - rewrite (Htc _ _ Hl). auto.
  - rewrite Hbody in Hb. inversion Hb; subst. auto.
  - rewrite Hbody in Hb. discriminate.
Qed.

(** X6. What C1, as amended, states for thumbnails holds for previews:
    when a call of [get_or_create_preview], made while the memo table of
    the hasher holds no outdated key for the source, created the
    artifact, a second call, however much later, returns the same path,
    transcodes nothing and changes no file, and the body returns at the
    existence check. *)
Theorem preview_twice_is_cache_hit (E : Env) (p art : string) (w w1 : World) (d : Z) :
  hash_cache_fresh E p w ->
  get_or_create_preview E p w = (Ret art, w1) ->
  transcodes w1 = (transcodes w ++ [(p, art, true)])%list ->
  fst (get_or_create_preview E p (elapse d w1)) = Ret art /\
  transcodes (snd (get_or_create_preview E p (elapse d w1))) = transcodes w1 /\
  files (snd (get_or_create_preview E p (elapse d w1))) = files w1 /\
  path_exists (elapse d w1) art = true /\
  exists c, get_or_create_preview_body E p (elapse d w1)
            = (Ret art, set_hash_cache c (elapse d w1)).
Proof.
  intros Hfresh Hcall Htrace.
  destruct (get_or_create_preview_created E p art w w1 Hfresh Hcall Htrace)
    as (c & created & data & encoded & tc & Hart & Hc & Hread & Hex & Hw1).
  set (key := content_key E w p) in *.
  assert (Hfile : files w !! p = Some data).
  { unfold read_file in Hread. now destruct (decide (p ∈ unreadable w)). }
  assert (Hne : art <> p).
  { intros ->. apply read_file_exists in Hread. congruence. }
  assert (Htc : forall v t, preview_cache (elapse d w1) !! p = Some (v, t) ->
                            v = preview_artifact key).
  { intros v t. rewrite Hw1. simpl. rewrite lookup_insert_eq. congruence. }
  assert (Hhc : forall k t, hash_cache (elapse d w1) !! p = Some (k, t) -> k = key).
  { intros k t. rewrite Hw1. simpl. rewrite Hc. congruence. }
  assert (Hkey : content_key E (elapse d w1) p = key).
  { unfold key, content_key, read_file. rewrite Hw1. simpl.
    rewrite lookup_insert_ne by exact Hne. reflexivity. }
  assert (Hex1 : path_exists (elapse d w1) (preview_artifact key) = true).
  { rewrite <- Hart. apply path_exists_file with (data := encoded).
    rewrite Hw1. simpl. apply lookup_insert_eq. }
  destruct (get_or_create_preview_again E p key (elapse d w1) Htc Hhc Hkey Hex1)
    as (Hv & Ht & Hf).
  rewrite <- Hart in Hv, Hex1.
  repeat split; try assumption.
  rewrite Hart, get_or_create_preview_body_eq.
  apply resolve_body_hit; [assumption|assumption|now rewrite <- Hart].
Qed.

Lemma preview_twice_is_cache_hit_witness :
  let first := get_or_create_preview sample_env foto_a sample_world in
  fst first = Ret "cache/previews/5289df737df57326fcdd22597afb1fac_preview.webp" /\
  fst (get_or_create_preview sample_env foto_a (elapse 10000 (snd first))) = fst first /\
  transcodes (snd (get_or_create_preview sample_env foto_a (elapse 10000 (snd first))))
  = [(foto_a, "cache/previews/5289df737df57326fcdd22597afb1fac_preview.webp", true)].
Proof.
  cbv zeta. split; [vm_compute; reflexivity|].
  pose proof (preview_twice_is_cache_hit sample_env foto_a
                "cache/previews/5289df737df57326fcdd22597afb1fac_preview.webp"
                sample_world
                (snd (get_or_create_preview sample_env foto_a sample_world))
                10000) as H.
  assert (H1 : hash_cache_fresh sample_env foto_a sample_world).
  { intros v c Hl. vm_compute in Hl. discriminate. }
  assert (H2 : get_or_create_preview sample_env foto_a sample_world =
               (Ret "cache/previews/5289df737df57326fcdd22597afb1fac_preview.webp",
                snd (get_or_create_preview sample_env foto_a sample_world))).
  { vm_compute. reflexivity. }
  assert (H3 : transcodes (snd (get_or_create_preview sample_env foto_a sample_world)) =
               (transcodes sample_world ++
                [(foto_a, "cache/previews/5289df737df57326fcdd22597afb1fac_preview.webp", true)])%list).
  { vm_compute. reflexivity. }
  destruct (H H1 H2 H3) as (Hv & Ht & _).
  split.
  - rewrite Hv. vm_compute. reflexivity.
  - rewrite Ht. exact H3.
Defined.


(** *** Memoised answers *)

Lemma cache_data_memoised {A : Type} (ttl : Z) (table : World -> gmap string (A * Z))
    (store : gmap string (A * Z) -> World -> World) (body : string -> M A)
    (arg : string) (w w1 w2 : World) (v : A) :
  (forall c w0, table (store c w0) = c) ->
  (forall r w0, body arg w = (r, w0) -> now w0 = now w) ->
  cache_miss ttl table arg w ->
  cache_data ttl table store body arg w = (Ret v, w1) ->
  table w2 !! arg = table w1 !! arg ->
  now w2 < now w + ttl ->
  cache_data ttl table store body arg w2 = (Ret v, w2).
Proof.
  intros Hstore Hnow Hmiss Hcall Htable Hlive.
  destruct (cache_data_cases ttl table store body arg w)
    as [(v0 & t & Hl & Hl' & _)|[(v0 & w0 & Hb & Heq)|(e & w0 & Hb & Heq)]];
    [specialize (Hmiss _ _ Hl); lia| |congruence].
  rewrite Heq in Hcall. inversion Hcall; subst v0 w1. clear Hcall.
  rewrite Hstore, lookup_insert_eq in Htable.
  apply (cache_data_hit ttl table store body arg w2 v (now w0) Htable).
  rewrite (Hnow _ _ Hb). exact Hlive.
Qed.

Lemma obtener_imagenes_galeria_body_world (nombre : string) (w : World) :
  snd (obtener_imagenes_galeria_body nombre w) = w.
Proof.
  unfold obtener_imagenes_galeria_body, bind, os_path_exists, os_listdir, ret.
  destruct (path_exists w _); [|reflexivity].
  destruct (directories w !! _); reflexivity.
Qed.

(** X7. An answer computed by a decorated function is returned again,
    without running the function, by every call made less than its
    time-to-live after the computing call (3600 s for the hasher, 7200 s
    for the two resolvers, 1800 s for the lister), whatever has happened
    to the files in between: the second world is any world that still
    holds the table entry. *)
Theorem memoised_answers (E : Env) (arg : string) (w w2 : World) :
  (cache_miss 3600 hash_cache arg w ->
   forall v w1, get_image_hash E arg w = (Ret v, w1) ->
                hash_cache w2 !! arg = hash_cache w1 !! arg ->
                now w2 < now w + 3600 ->
                get_image_hash E arg w2 = (Ret v, w2)) /\
  (cache_miss 7200 thumbnail_cache arg w ->
   forall v w1, get_or_create_thumbnail E arg w = (Ret v, w1) ->
                thumbnail_cache w2 !! arg = thumbnail_cache w1 !! arg ->
                now w2 < now w + 7200 ->
                get_or_create_thumbnail E arg w2 = (Ret v, w2)) /\
  (cache_miss 7200 preview_cache arg w ->
   forall v w1, get_or_create_preview E arg w = (Ret v, w1) ->
                preview_cache w2 !! arg = preview_cache w1 !! arg ->
                now w2 < now w + 7200 ->
                get_or_create_preview E arg w2 = (Ret v, w2)) /\
  (cache_miss 1800 gallery_cache arg w ->
   forall v w1, obtener_imagenes_galeria arg w = (Ret v, w1) ->
                gallery_cache w2 !! arg = gallery_cache w1 !! arg ->
                now w2 < now w + 1800 ->
                obtener_imagenes_galeria arg w2 = (Ret v, w2)).
Proof.
  repeat split; intros Hmiss v w1 Hcall Htable Hlive.
  - eapply cache_data_memoised; try eassumption; [reflexivity|].
    intros r w0. rewrite get_image_hash_body_eq. now inversion 1.
  - eapply cache_data_memoised; try eassumption; [reflexivity|].
    intros r w0 Hb.
    destruct (resolve_body_effect E thumbnail_artifact THUMBNAIL_SIZE THUMBNAIL_QUALITY
                arg w) as (v' & w' & Hbody & _ & Hnow & _).
    rewrite <- get_or_create_thumbnail_body_eq in Hbody. congruence.
  - eapply cache_data_memoised; try eassumption; [reflexivity|].
    intros r w0 Hb.
    destruct (resolve_body_effect E preview_artifact PREVIEW_SIZE PREVIEW_QUALITY
                arg w) as (v' & w' & Hbody & _ & Hnow & _).
    rewrite <- get_or_create_preview_body_eq in Hbody. congruence.
  - eapply cache_data_memoised; try eassumption; [reflexivity|].
    intros r w0 Hb. pose proof (obtener_imagenes_galeria_body_world arg w) as Hw.
    rewrite Hb in Hw. simpl in Hw. now subst.
Qed.

Lemma memoised_answers_witness :
  get_or_create_thumbnail sample_env foto_rota repaired_world = (Ret foto_rota, repaired_world).
Proof.
  destruct (memoised_answers sample_env foto_rota sample_world repaired_world)
    as (_ & H & _).
  apply (H ltac:(intros v c Hl; vm_compute in Hl; discriminate) foto_rota
           (snd (get_or_create_thumbnail sample_env foto_rota sample_world))).
  - vm_compute. reflexivity.
  - reflexivity.
  - vm_compute. reflexivity.
Defined.

(** *** Keys and artifact paths *)

Lemma digit_value_digit_char (d : Z) : 0 <= d <= 9 -> digit_value (digit_char d) = d.
Proof.
  intros Hd. unfold digit_value, digit_char.
  rewrite N_ascii_embedding by lia. lia.
Qed.

Lemma digit_char_not_minus (d : Z) : 0 <= d <= 9 -> Ascii.eqb (digit_char d) "-" = false.
Proof.
  intros Hd. apply Ascii.eqb_neq. intros Heq.
  apply (f_equal digit_value) in Heq. rewrite digit_value_digit_char in Heq by exact Hd.
  vm_compute in Heq. lia.
Qed.

Lemma digit_char_not_slash (d : Z) : 0 <= d <= 9 -> digit_char d <> "/"%char.
Proof.
  intros Hd Heq.
  apply (f_equal digit_value) in Heq. rewrite digit_value_digit_char in Heq by exact Hd.
  vm_compute in Heq. lia.
Qed.

Lemma read_digits_decimal (fuel : nat) :
  forall (n : Z) (acc : string),
    0 <= n < 2 ^ Z.of_nat fuel ->
    read_digits (decimal_digits fuel n acc) 0 = read_digits acc n.
Proof.
  induction fuel as [|fuel IH]; intros n acc Hn.
  - simpl in *. now replace n with 0 by lia.
  - rewrite Nat2Z.inj_succ, Z.pow_succ_r in Hn by lia. simpl.
    pose proof (Z.mod_pos_bound n 10 ltac:(lia)) as Hmod.
    pose proof (Z.div_mod n 10 ltac:(lia)) as Hdiv.
    destruct (Z.eqb_spec (n / 10) 0) as [Hq|Hq].
    + simpl. rewrite digit_value_digit_char by lia. f_equal. lia.
    + rewrite IH.
      * simpl. rewrite digit_value_digit_char by lia. f_equal. lia.
      * split; [apply Z.div_pos; lia|]. apply Z.div_lt_upper_bound; lia.
Qed.

Lemma decimal_digits_head (fuel : nat) :
  forall (n : Z) (acc : string),
    0 <= n ->
    exists d rest, 0 <= d <= 9 /\ decimal_digits (S fuel) n acc = String (digit_char d) rest.
Proof.
  induction fuel as [|fuel IH]; intros n acc Hn.
  - exists (n mod 10), acc. split; [pose proof (Z.mod_pos_bound n 10); lia|].
    simpl. now destruct (n / 10 =? 0).
  - change (decimal_digits (S (S fuel)) n acc) with
      (if n / 10 =? 0 then String (digit_char (n mod 10)) acc
       else decimal_digits (S fuel) (n / 10) (String (digit_char (n mod 10)) acc)).
    destruct (n / 10 =? 0).
    + exists (n mod 10), acc. split; [pose proof (Z.mod_pos_bound n 10); lia|reflexivity].
    + apply IH. apply Z.div_pos; lia.
Qed.

Lemma log2_fuel (m : Z) : 0 <= m -> m < 2 ^ Z.of_nat (S (Z.to_nat (Z.log2 m))).
Proof.
  intros Hm. rewrite Nat2Z.inj_succ, Z2Nat.id by apply Z.log2_nonneg.
  destruct (Z.eq_dec m 0) as [->|Hne]; [reflexivity|].
  apply Z.log2_spec. lia.
Qed.

(** The decimal text of an integer reads back as the integer. *)
Lemma int_of_str_of_int (n : Z) : int_of_str (str_of_int n) = n.
Proof.
  unfold str_of_int.
  pose proof (read_digits_decimal (S (Z.to_nat (Z.log2 (Z.abs n)))) (Z.abs n) EmptyString
                (conj (Z.abs_nonneg n) (log2_fuel _ (Z.abs_nonneg n)))) as Hread.
  simpl read_digits in Hread at 2.
  destruct (Z.ltb_spec n 0) as [Hneg|Hpos].
  - unfold int_of_str. rewrite Ascii.eqb_refl, Hread. lia.
  - destruct (decimal_digits_head (Z.to_nat (Z.log2 (Z.abs n))) (Z.abs n) EmptyString
                (Z.abs_nonneg n)) as (d & rest & Hd & Heq).
    unfold int_of_str. rewrite Heq, digit_char_not_minus by exact Hd.
    rewrite <- Heq, Hread. lia.
Qed.

(** X8. For two paths that cannot be read, the hasher computes the same
    key exactly when [hash()] gives the two paths the same value: the
    decimal text loses nothing, and nothing but the hash enters the
    key. *)
Theorem fallback_keys_equal_iff_hashes_equal (E : Env) (w : World) (p q : string) :
  read_file w p = None ->
  read_file w q = None ->
  (fst (get_image_hash_body E p w) = fst (get_image_hash_body E q w) <->
   py_hash E p = py_hash E q).
Proof.
  intros Hp Hq.
  rewrite (get_image_hash_body_unreadable E w p Hp),
          (get_image_hash_body_unreadable E w q Hq). simpl. split.
  - intros Heq. inversion Heq as [Hs].
    apply (f_equal int_of_str) in Hs. now rewrite !int_of_str_of_int in Hs.
  - now intros ->.
Qed.

Lemma fallback_keys_equal_iff_hashes_equal_witness :
  fst (get_image_hash_body sample_env foto_ausente sample_world) <>
  fst (get_image_hash_body sample_env "imagenes/otra.jpg" sample_world).
Proof.
  intros Heq.
  apply (fallback_keys_equal_iff_hashes_equal sample_env sample_world foto_ausente
           "imagenes/otra.jpg") in Heq.
  - vm_compute in Heq. discriminate.
  - vm_compute. reflexivity.
  - vm_compute. reflexivity.
Defined.

Lemma hex_digit_not_slash (d : Z) : MD5.hex_digit d <> "/"%char.
Proof.
  unfold MD5.hex_digit. simpl list_ascii_of_string.
  destruct (Z.to_nat d) as [|n]; [discriminate|].
  do 15 (destruct n as [|n]; [discriminate|]).
  simpl. now destruct n.
Qed.

(** A key the hasher computes is not empty and does not begin with the
    path separator. *)
Lemma content_key_head (E : Env) (w : World) (p : string) :
  exists c rest, content_key E w p = String c rest /\ c <> "/"%char.
Proof.
  unfold content_key. destruct (read_file w p) as [data|].
  - unfold MD5.hexdigest. pose proof (digest_length data) as Hlen.
    destruct (MD5.digest data) as [|b bs]; [discriminate|].
    simpl. eexists _, _. split; [reflexivity|]. apply hex_digit_not_slash.
  - unfold str_of_int. destruct (py_hash E p <? 0).
    + eexists _, _. split; [reflexivity|]. discriminate.
    + destruct (decimal_digits_head (Z.to_nat (Z.log2 (Z.abs (py_hash E p))))
                  (Z.abs (py_hash E p)) EmptyString (Z.abs_nonneg _))
        as (d & rest & Hd & ->).
      eexists _, _. split; [reflexivity|]. now apply digit_char_not_slash.
Qed.

Lemma os_path_join_relative (dir name : string) (c : ascii) (rest : string) :
  name = String c rest -> c <> "/"%char ->
  dir <> "" -> endswith dir "/" = false ->
  os_path_join dir name = dir +:+ "/" +:+ name.
Proof.
  intros -> Hc Hdir Hend. unfold os_path_join, startswith.
  assert (Hpre : String.prefix "/" (String c rest) = false).
  { cbn [String.prefix]. destruct (ascii_dec "/" c) as [Heq|_]; [now subst|reflexivity]. }
  apply String.eqb_neq in Hdir. now rewrite Hpre, Hdir, Hend.
Qed.

Lemma string_length_app (s t : string) :
  String.length (s +:+ t) = (String.length s + String.length t)%nat.
Proof.
  induction s as [|c s IH]; [reflexivity|].
  change (String c s +:+ t) with (String c (s +:+ t)). simpl. now rewrite IH.
Qed.

Lemma string_app_cancel_r (t : string) :
  forall s1 s2, s1 +:+ t = s2 +:+ t -> s1 = s2.
Proof.
  induction s1 as [|a s1 IH]; intros [|b s2] Heq; [reflexivity| | |].
  - apply (f_equal String.length) in Heq.
    rewrite !string_length_app in Heq. simpl in Heq. lia.
  - apply (f_equal String.length) in Heq.
    rewrite !string_length_app in Heq. simpl in Heq. lia.
  - change (String a (s1 +:+ t) = String b (s2 +:+ t)) in Heq.
    inversion Heq; subst. f_equal. now apply IH.
Qed.

(** X9. For the keys the hasher computes, the thumbnail of a key is the
    file [cache/thumbnails/<key>_thumb.webp] and its preview the file
    [cache/previews/<key>_preview.webp]; no thumbnail path is a preview
    path, and two keys have the same thumbnail path, or the same preview
    path, only when they are the same key. *)
Theorem artifact_paths (E : Env) (w w' : World) (p q : string) :
  let k := content_key E w p in
  let k' := content_key E w' q in
  thumbnail_artifact k = "cache/thumbnails/" +:+ k +:+ "_thumb.webp" /\
  preview_artifact k = "cache/previews/" +:+ k +:+ "_preview.webp" /\
  thumbnail_artifact k <> preview_artifact k' /\
  (thumbnail_artifact k = thumbnail_artifact k' -> k = k') /\
  (preview_artifact k = preview_artifact k' -> k = k').
Proof.
  intros k k'.
  destruct (content_key_head E w p) as (c & rest & Hk & Hc).
  destruct (content_key_head E w' q) as (c' & rest' & Hk' & Hc').
  fold k in Hk. fold k' in Hk'. clearbody k k'.
  assert (Ht : forall key ch r, key = String ch r -> ch <> "/"%char ->
                 thumbnail_artifact key = "cache/thumbnails/" +:+ key +:+ "_thumb.webp").
  { intros key ch r -> Hch. unfold thumbnail_artifact.
    erewrite os_path_join_relative; [reflexivity|reflexivity|exact Hch|discriminate|reflexivity]. }
  assert (Hp : forall key ch r, key = String ch r -> ch <> "/"%char ->
                 preview_artifact key = "cache/previews/" +:+ key +:+ "_preview.webp").
  { intros key ch r -> Hch. unfold preview_artifact.
    erewrite os_path_join_relative; [reflexivity|reflexivity|exact Hch|discriminate|reflexivity]. }
  rewrite (Ht k c rest Hk Hc), (Ht k' c' rest' Hk' Hc'),
          (Hp k c rest Hk Hc), (Hp k' c' rest' Hk' Hc').
  repeat split.
  - intros Heq. vm_compute in Heq. discriminate.
  - intros Heq. apply (inj (String.app "cache/thumbnails/")) in Heq.
    now apply string_app_cancel_r in Heq.
  - intros Heq. apply (inj (String.app "cache/previews/")) in Heq.
    now apply string_app_cancel_r in Heq.
Qed.

Lemma artifact_paths_witness :
  thumbnail_artifact (content_key sample_env sample_world foto_a) =
  "cache/thumbnails/" +:+ content_key sample_env sample_world foto_a +:+ "_thumb.webp".
Proof.
  exact (proj1 (artifact_paths sample_env sample_world sample_world foto_a foto_b)).
Defined.

(** *** Batches and the files *)





(** *** Counting the images of a gallery *)

Lemma map_chars_app (f : ascii -> ascii) (s t : string) :
  map_chars f (s +:+ t) = map_chars f s +:+ map_chars f t.
Proof.
  induction s as [|c s IH]; [reflexivity|].
  change (String c s +:+ t) with (String c (s +:+ t)). simpl map_chars.
  change (String (f c) (map_chars f s) +:+ map_chars f t)
    with (String (f c) (map_chars f s +:+ map_chars f t)).
  now rewrite IH.
Qed.

Lemma replace_backslash_inj (a b : string) :
  contains_char "/" a = false -> contains_char "/" b = false ->
  replace_char "\"%char "/"%char a = replace_char "\"%char "/"%char b -> a = b.
Proof.
  revert b. induction a as [|x a IH]; intros [|y b] Ha Hb Heq;
    try reflexivity; try discriminate.
  simpl in Ha, Hb. apply orb_false_iff in Ha as [Hx Ha]. apply orb_false_iff in Hb as [Hy Hb].
  unfold replace_char in Heq. simpl in Heq. inversion Heq as [[Hc Hrest]].
  f_equal; [|apply IH; assumption].
  apply Ascii.eqb_neq in Hx, Hy.
  destruct (Ascii.eqb_spec x "\"%char), (Ascii.eqb_spec y "\"%char); congruence.
Qed.

Lemma startswith_slash_contains (a : string) :
  contains_char "/" a = false -> startswith a "/" = false.
Proof.
  destruct a as [|x a]; [reflexivity|]. intros Ha. simpl in Ha.
  apply orb_false_iff in Ha as [Hx _]. apply Ascii.eqb_neq in Hx.
  unfold startswith. cbn [String.prefix].
  destruct (ascii_dec "/" x); [congruence|reflexivity].
Qed.

Lemma ruta_de_inj (ruta a b : string) :
  contains_char "/" a = false -> contains_char "/" b = false ->
  ruta_de ruta a = ruta_de ruta b -> a = b.
Proof.
  intros Ha Hb. unfold ruta_de, os_path_join.
  rewrite !startswith_slash_contains by assumption.
  destruct (String.eqb ruta "" || endswith ruta "/"); unfold replace_char;
    rewrite !map_chars_app; intros Heq.
  - apply (inj (String.app _)) in Heq. now apply replace_backslash_inj.
  - apply (inj (String.app _)) in Heq. apply (inj (String.app _)) in Heq.
    now apply replace_backslash_inj.
Qed.

(** The members of the list returned for a gallery directory. *)
Lemma obtener_imagenes_galeria_members (nombre : string) (w : World)
    (archivos : list string) :
  cache_fresh 1800 gallery_cache obtener_imagenes_galeria_body nombre w ->
  directories w !! ("imagenes/Galerias/" +:+ nombre) = Some archivos ->
  exists imagenes,
    fst (obtener_imagenes_galeria nombre w) = Ret imagenes /\
    NoDup imagenes /\
    forall x, x ∈ imagenes <->
              exists archivo, archivo ∈ archivos /\ has_image_extension archivo /\
                              x = ruta_de ("imagenes/Galerias/" +:+ nombre) archivo.
Proof.
  intros Hfresh Hdir. unfold obtener_imagenes_galeria.
  rewrite cache_data_value by exact Hfresh.
  rewrite (obtener_imagenes_galeria_body_listed nombre w archivos Hdir). simpl.
  eexists. split; [reflexivity|]. unfold sorted. split.
  - rewrite merge_sort_Permutation. apply NoDup_elements.
  - intros x. rewrite merge_sort_Permutation, elem_of_elements.
    rewrite elem_of_fold_add_if_image. split; [|auto].
    intros [H|H]; [|exact H]. now apply not_elem_of_empty in H.
Qed.

Lemma obtener_imagenes_galeria_members_count (nombre : string) (archivos imagenes : list string) :
  NoDup archivos ->
  (forall a, a ∈ archivos -> contains_char "/" a = false) ->
  NoDup imagenes ->
  (forall x, x ∈ imagenes <->
             exists archivo, archivo ∈ archivos /\ has_image_extension archivo /\
                             x = ruta_de ("imagenes/Galerias/" +:+ nombre) archivo) ->
  List.length imagenes = List.length (List.filter es_imagen archivos).
Proof.
  intros Hnodup Hnames Hnd Hmem.
  transitivity (List.length (map (ruta_de ("imagenes/Galerias/" +:+ nombre))
                                  (List.filter es_imagen archivos)));
    [|apply length_map].
  apply Permutation_length, NoDup_Permutation; [exact Hnd| |].
  - apply (NoDup_fmap_2_strong (ruta_de ("imagenes/Galerias/" +:+ nombre))).
    + intros a b Ha Hb. apply list_elem_of_In, filter_In in Ha as [Ha _].
      apply list_elem_of_In, filter_In in Hb as [Hb _].
      apply ruta_de_inj; apply Hnames; now apply list_elem_of_In.
    + apply NoDup_ListNoDup, List.NoDup_filter, NoDup_ListNoDup, Hnodup.
  - intros x. rewrite Hmem. split.
    + intros (a & Ha & Hext & ->). apply list_elem_of_fmap. exists a. split; [reflexivity|].
      apply list_elem_of_In, filter_In. split; [now apply list_elem_of_In|].
      now apply es_imagen_iff.
    + intros Hx. apply list_elem_of_fmap in Hx as (a & -> & Ha).
      apply list_elem_of_In, filter_In in Ha as [Ha Hext].
      exists a. split; [now apply list_elem_of_In|]. split; [|reflexivity].
      now apply es_imagen_iff.
Qed.

(** X11. For a gallery directory whose entries are distinct names without
    a slash, as [os.listdir] gives them, and with no outdated listing
    memoised, the lister returns as many paths as there are entries with
    an image extension: no two entries are merged and none is dropped or
    counted twice. *)
Theorem obtener_imagenes_galeria_count (nombre : string) (w : World)
    (archivos : list string) :
  cache_fresh 1800 gallery_cache obtener_imagenes_galeria_body nombre w ->
  directories w !! ("imagenes/Galerias/" +:+ nombre) = Some archivos ->
  NoDup archivos ->
  (forall a, a ∈ archivos -> contains_char "/" a = false) ->
  exists imagenes,
    fst (obtener_imagenes_galeria nombre w) = Ret imagenes /\
    List.length imagenes = List.length (List.filter es_imagen archivos).
Proof.
  intros Hfresh Hdir Hnodup Hnames.
  destruct (obtener_imagenes_galeria_members nombre w archivos Hfresh Hdir)
    as (imagenes & Hcall & Hnd & Hmem).
  exists imagenes. split; [exact Hcall|].
  now apply (obtener_imagenes_galeria_members_count nombre archivos).
Qed.

Lemma obtener_imagenes_galeria_count_witness :
  exists imagenes,
    fst (obtener_imagenes_galeria "boda" sample_world) = Ret imagenes /\
    List.length imagenes = 7%nat.
Proof.
  apply (obtener_imagenes_galeria_count "boda" sample_world
           ["b.jpg"; "notes.txt"; "a.jpg"; "photo1.jpg"; "photo1.JPG"; "rota.jpg";
            "fatal.jpg"; "c.WebP"; "jpg"]).
  - intros v c Hl. vm_compute in Hl. discriminate.
  - vm_compute. reflexivity.
  - apply (bool_decide_unpack _). vm_compute. exact I.
  - intros a Ha.
    repeat (apply elem_of_cons in Ha as [->|Ha]; [reflexivity|]).
    now apply elem_of_nil in Ha.
Defined.

(** *** Pages *)

Lemma pagina_take_drop (imagenes : list string) (k : nat) :
  pagina imagenes (Z.of_nat k) = take 8 (drop (8 * k) imagenes).
Proof.
  unfold pagina, py_slice, py_index, IMAGES_PER_PAGE.
  set (n := List.length imagenes).
  destruct (Z.ltb_spec (Z.of_nat k * 8) 0); [lia|].
  destruct (Z.ltb_spec (Z.min (Z.of_nat k * 8 + 8) (Z.of_nat n)) 0); [lia|].
  destruct (Nat.le_gt_cases n (8 * k)) as [Hle|Hgt].
  - rewrite !drop_ge by (fold n; lia). now rewrite !take_nil.
  - replace (Z.to_nat (Z.min (Z.of_nat k * 8) (Z.of_nat n))) with (8 * k)%nat by lia.
    destruct (Nat.le_gt_cases (8 * k + 8) n) as [Hfull|Hlast].
    + f_equal. lia.
    + rewrite !take_ge; [reflexivity| |]; rewrite length_drop; fold n; lia.
Qed.

Lemma concat_chunks {A : Type} (c m : nat) :
  forall l : list A,
    (List.length l <= c * m)%nat ->
    concat (map (fun k => take c (drop (c * k) l)) (seq 0 m)) = l.
Proof.
  induction m as [|m IH]; intros l Hl.
  - destruct l; [reflexivity|simpl in Hl; lia].
  - rewrite Nat.mul_succ_r in Hl.
    simpl seq. rewrite <- seq_shift, map_cons, map_map. simpl concat.
    rewrite (map_ext _ (fun k => take c (drop (c * k) (drop c l)))).
    + rewrite Nat.mul_0_r, IH by (rewrite length_drop; lia). apply take_drop.
    + intros k. rewrite drop_drop, Nat.mul_succ_r. do 2 f_equal. lia.
Qed.

(** X12. The pages of a listing, taken in order from page 0 to the last,
    are the listing itself: every image is on exactly one page, in the
    order of the list; and a run that finds the index [pg] stored and
    receives no click shows exactly page [pg]. *)
Theorem pages_partition_the_listing (nombre : string) (imagenes : list string) :
  concat (map (fun k => pagina imagenes (Z.of_nat k))
            (seq 0 (Z.to_nat (paginas imagenes)))) = imagenes /\
  forall (session_state : gmap string Z) (pg : Z),
    imagenes <> [] ->
    session_state !! page_key nombre = Some pg ->
    exists v,
      snd (mostrar_galeria_optimizada_final nombre imagenes NoClick session_state) = Some v /\
      current_page v = pg /\ total_pages v = paginas imagenes /\
      imagenes_pagina v = pagina imagenes pg.
Proof.
  split.
  - rewrite (map_ext _ (fun k => take 8 (drop (8 * k) imagenes)))
      by (intros k; apply pagina_take_drop).
    apply concat_chunks. unfold paginas, IMAGES_PER_PAGE.
    assert (H : Z.of_nat (List.length imagenes) <=
                8 * ((Z.of_nat (List.length imagenes) + 8 - 1) / 8))
      by (Z.to_euclidean_division_equations; lia).
    assert (0 <= (Z.of_nat (List.length imagenes) + 8 - 1) / 8)
      by (Z.to_euclidean_division_equations; lia).
    lia.
  - intros ss pg Hne Hpg. unfold mostrar_galeria_optimizada_final.
    destruct imagenes as [|x rest]; [congruence|].
    rewrite Hpg. cbv zeta. rewrite Hpg.
    unfold st_button. simpl bool_decide. rewrite !andb_false_r. simpl.
    eexists. split; [reflexivity|]. repeat split.
Qed.

Lemma pages_partition_the_listing_witness :
  concat (map (fun k => pagina (fotos 17) (Z.of_nat k))
            (seq 0 (Z.to_nat (paginas (fotos 17))))) = fotos 17.
Proof. exact (proj1 (pages_partition_the_listing "boda" (fotos 17))). Defined.

(** X13. Every page of a listing holds at least one and at most
    [IMAGES_PER_PAGE] images, and every page but the last holds exactly
    [IMAGES_PER_PAGE]. *)
Theorem page_sizes (imagenes : list string) (pg : Z) :
  0 <= pg < paginas imagenes ->
  (1 <= Z.of_nat (List.length (pagina imagenes pg)) <= IMAGES_PER_PAGE) /\
  (pg < paginas imagenes - 1 ->
   Z.of_nat (List.length (pagina imagenes pg)) = IMAGES_PER_PAGE).
Proof.
  intros Hpg.
  assert (Hk : exists k, pg = Z.of_nat k) by (exists (Z.to_nat pg); lia).
  destruct Hk as [k ->].
  rewrite pagina_take_drop, length_take, length_drop.
  unfold paginas, IMAGES_PER_PAGE in *.
  set (n := List.length imagenes) in *.
  assert (Hn : 8 * Z.of_nat k < Z.of_nat n) by (Z.to_euclidean_division_equations; lia).
  split; [lia|]. intros Hlast.
  assert (8 * Z.of_nat k + 8 <= Z.of_nat n) by (Z.to_euclidean_division_equations; lia).
  lia.
Qed.

Lemma page_sizes_witness :
  Z.of_nat (List.length (pagina (fotos 17) 2)) = 1 /\
  Z.of_nat (List.length (pagina (fotos 17) 1)) = IMAGES_PER_PAGE.
Proof.
  split; [vm_compute; reflexivity|].
  apply (page_sizes (fotos 17) 1); vm_compute; split; congruence || reflexivity.
Defined.

(** *** Buttons *)

Lemma mostrar_galeria_destino (nombre : string) (imagenes : list string) (click : Click)
    (session_state : gmap string Z) :
  imagenes <> [] ->
  page_state_ok nombre (Z.of_nat (List.length imagenes)) session_state ->
  fst (mostrar_galeria_optimizada_final nombre imagenes click session_state)
    !! page_key nombre =
  destino click (default 0 (session_state !! page_key nombre)) (paginas imagenes).
Proof.
  intros Hne Hok. unfold mostrar_galeria_optimizada_final, paginas.
  destruct imagenes as [|x rest] eqn:Himg; [congruence|].
  rewrite <- Himg in *.
  set (n := Z.of_nat (List.length imagenes)) in *.
  assert (Hn : 0 < n) by (unfold n; rewrite Himg; simpl; lia).
  set (key := page_key nombre) in *.
  set (ss0 := match session_state !! key with
              | None => <[key := 0]> session_state
              | Some _ => session_state
              end).
  assert (Hss0 : ss0 !! key = Some (default 0 (session_state !! key)) /\
                 0 <= default 0 (session_state !! key) /\
                 IMAGES_PER_PAGE * default 0 (session_state !! key) < n).
  { unfold ss0. destruct (session_state !! key) as [p0|] eqn:Hk.
    - simpl. split; [exact Hk|]. now apply Hok.
    - rewrite lookup_insert_eq. simpl. unfold IMAGES_PER_PAGE. repeat split; lia. }
  destruct Hss0 as (Hpg & Hpg0 & Hpgn). rewrite Hpg. simpl default.
  set (pg := default 0 (session_state !! key)) in *.
  pose proof (total_pages_bounds n Hn) as [Htp1 Htp2].
  set (tp := (n + IMAGES_PER_PAGE - 1) / IMAGES_PER_PAGE) in *.
  unfold IMAGES_PER_PAGE in Htp1, Htp2, Hpgn.
  unfold st_button.
  destruct click; simpl bool_decide; rewrite ?andb_false_r, ?andb_true_l; simpl negb;
    rewrite ?andb_true_r; cbn [destino];
    repeat match goal with
           | |- context [if ?b then _ else _] => destruct b eqn:?
           end; cbn [fst];
    rewrite ?lookup_insert_eq, ?lookup_delete_eq, ?Hpg; try reflexivity;
    repeat match goal with
           | H : _ && _ = true |- _ => apply andb_true_iff in H as [? ?]
           | H : _ && _ = false |- _ => apply andb_false_iff in H as [H|H]
           | H : negb _ = true |- _ => apply negb_true_iff in H
           | H : negb _ = false |- _ => apply negb_false_iff in H
           | H : (_ >? _) = true |- _ => apply Z.gtb_lt in H
           | H : (_ >? _) = false |- _ => rewrite Z.gtb_ltb in H; apply Z.ltb_ge in H
           | H : (_ >=? _) = false |- _ => rewrite Z.geb_leb in H; apply Z.leb_gt in H
           | H : (_ >=? _) = true |- _ => rewrite Z.geb_leb in H; apply Z.leb_le in H
           | H : (_ =? _) = false |- _ => apply Z.eqb_neq in H
           | H : (_ =? _) = true |- _ => apply Z.eqb_eq in H
           end; f_equal; lia.
Qed.

(** X14. In a run over a non-empty listing that finds a valid page index
    [pg] (or none, which counts as 0), each click leaves the index the
    table [destino] gives: first page 0, previous [max 0 (pg - 1)], next
    [min (total_pages - 1) (pg + 1)], last [total_pages - 1], back: no
    index at all.  This holds whether or not the controls are shown or
    enabled. *)
Theorem click_destination (nombre : string) (imagenes : list string) (click : Click)
    (session_state : gmap string Z) :
  imagenes <> [] ->
  page_state_ok nombre (Z.of_nat (List.length imagenes)) session_state ->
  fst (mostrar_galeria_optimizada_final nombre imagenes click session_state)
    !! page_key nombre =
  destino click (default 0 (session_state !! page_key nombre)) (paginas imagenes).
Proof. apply mostrar_galeria_destino. Qed.

Lemma click_destination_witness :
  fst (mostrar_galeria_optimizada_final "boda" (fotos 17) ClickSiguiente
         {[ page_key "boda" := 1 ]}) !! page_key "boda" = Some 2.
Proof.
  rewrite (click_destination "boda" (fotos 17) ClickSiguiente {[ page_key "boda" := 1 ]}).
  - vm_compute. reflexivity.
  - discriminate.
  - intros pg Hpg. rewrite lookup_singleton_eq in Hpg. inversion Hpg; subst.
    vm_compute. split; [discriminate|reflexivity].
Defined.

Lemma page_state_ok_after (nombre : string) (imagenes : list string) (click : Click)
    (session_state : gmap string Z) :
  page_state_ok nombre (Z.of_nat (List.length imagenes)) session_state ->
  page_state_ok nombre (Z.of_nat (List.length imagenes))
    (fst (mostrar_galeria_optimizada_final nombre imagenes click session_state)).
Proof. intros Hok. now apply mostrar_galeria_step. Qed.

(** X15. With the listing unchanged, next followed by previous comes back
    to the page it started from, unless that page was the last; and
    previous followed by next comes back, unless it was the first. *)
Theorem next_previous_round_trip (nombre : string) (imagenes : list string)
    (session_state : gmap string Z) (pg : Z) :
  session_state !! page_key nombre = Some pg ->
  0 <= pg < paginas imagenes ->
  let go click ss := fst (mostrar_galeria_optimizada_final nombre imagenes click ss) in
  (pg < paginas imagenes - 1 ->
   go ClickAnterior (go ClickSiguiente session_state) !! page_key nombre = Some pg) /\
  (0 < pg ->
   go ClickSiguiente (go ClickAnterior session_state) !! page_key nombre = Some pg).
Proof.
  intros Hpg Hrange go.
  assert (Hne : imagenes <> []).
  { intros ->. change (paginas []) with 0 in Hrange. lia. }
  assert (Hok : page_state_ok nombre (Z.of_nat (List.length imagenes)) session_state).
  { intros q Hq. rewrite Hpg in Hq. inversion Hq; subst q.
    unfold paginas, IMAGES_PER_PAGE in *. split; [lia|].
    Z.to_euclidean_division_equations; lia. }
  split; intros Hside; unfold go.
  - rewrite mostrar_galeria_destino by (auto using page_state_ok_after).
    rewrite mostrar_galeria_destino by assumption.
    rewrite Hpg. simpl. f_equal. lia.
  - rewrite mostrar_galeria_destino by (auto using page_state_ok_after).
    rewrite mostrar_galeria_destino by assumption.
    rewrite Hpg. simpl. f_equal. lia.
Qed.

Lemma next_previous_round_trip_witness :
  fst (mostrar_galeria_optimizada_final "boda" (fotos 17) ClickAnterior
         (fst (mostrar_galeria_optimizada_final "boda" (fotos 17) ClickSiguiente
                 {[ page_key "boda" := 1 ]}))) !! page_key "boda" = Some 1.
Proof.
  refine (proj1 (next_previous_round_trip "boda" (fotos 17) {[ page_key "boda" := 1 ]} 1
                   _ _) _).
  - apply lookup_singleton_eq.
  - vm_compute. split; [discriminate|reflexivity].
  - vm_compute. reflexivity.
Defined.

Lemma page_key_inj (a b : string) : page_key a = page_key b -> a = b.
Proof. unfold page_key. apply (inj (String.app "page_")). Qed.

(** X16. A run of the view of one gallery leaves the stored page index of
    every other gallery as it was. *)
Theorem other_galleries_untouched (nombre otra : string) (imagenes : list string)
    (click : Click) (session_state : gmap string Z) :
  nombre <> otra ->
  fst (mostrar_galeria_optimizada_final nombre imagenes click session_state)
    !! page_key otra = session_state !! page_key otra.
Proof.
  intros Hne.
  assert (Hkey : page_key nombre <> page_key otra)
    by (intros Heq; now apply page_key_inj in Heq).
  unfold mostrar_galeria_optimizada_final.
  destruct imagenes as [|x rest]; [reflexivity|].
  cbv zeta.
  destruct (session_state !! page_key nombre);
    repeat match goal with
           | |- context [if ?b then _ else _] => destruct b
           end; cbn [fst];
    repeat (rewrite lookup_insert_ne by exact Hkey);
    repeat (rewrite lookup_delete_ne by exact Hkey);
    repeat (rewrite lookup_insert_ne by exact Hkey);
    reflexivity.
Qed.

Lemma other_galleries_untouched_witness :
  fst (mostrar_galeria_optimizada_final "boda" (fotos 17) ClickUltima
         {[ page_key "retratos" := 3 ]}) !! page_key "retratos" = Some 3.
Proof.
  rewrite (other_galleries_untouched "boda" "retratos"); [|discriminate].
  apply lookup_singleton_eq.
Defined.

(** X17. After the back button, the gallery opens again on its first page,
    whatever index was stored before and whatever the listing has become:
    the click deletes the stored index and the next run starts from 0. *)
Theorem volver_resets_page (nombre : string) (imagenes imagenes' : list string)
    (session_state : gmap string Z) :
  imagenes <> [] ->
  imagenes' <> [] ->
  let after := fst (mostrar_galeria_optimizada_final nombre imagenes ClickVolver
                      session_state) in
  after !! page_key nombre = None /\
  exists v,
    snd (mostrar_galeria_optimizada_final nombre imagenes' NoClick after) = Some v /\
    current_page v = 0 /\ start_idx v = 0.
Proof.
  intros Hne Hne' after.
  assert (Hafter : after !! page_key nombre = None).
  { unfold after, mostrar_galeria_optimizada_final.
    destruct imagenes as [|x rest]; [congruence|].
    unfold st_button. simpl bool_decide. rewrite !andb_false_r. simpl.
    apply lookup_delete_eq. }
  split; [exact Hafter|].
  unfold mostrar_galeria_optimizada_final.
  destruct imagenes' as [|x rest]; [congruence|].
  rewrite Hafter. cbv zeta. rewrite lookup_insert_eq.
  unfold st_button. simpl bool_decide. rewrite !andb_false_r. simpl.
  eexists. split; [reflexivity|]. split; reflexivity.
Qed.

Lemma volver_resets_page_witness :
  fst (mostrar_galeria_optimizada_final "boda" (fotos 17) ClickVolver
         {[ page_key "boda" := 2 ]}) !! page_key "boda" = None.
Proof.
  refine (proj1 (volver_resets_page "boda" (fotos 17) (fotos 8) {[ page_key "boda" := 2 ]}
                   _ _)); discriminate.
Defined.

(** *** The grid *)

(** Showing a column changes nothing in the world. *)
Lemma mostrar_celda_world (E : Env) (par : string * string) (foto view imagen : Z)
    (w : World) :
  snd (mostrar_celda E par foto view imagen w) = w.
Proof.
  destruct par as [original_path thumbnail_path].
  unfold mostrar_celda, Image_open_path, try_except, bind, open_rb, lift, ret.
  repeat (break_match; simplify_eq/=); reflexivity.
Qed.

Lemma mostrar_celda_eq (E : Env) (start_idx : Z) (j : nat) (par : string * string)
    (w : World) (foto view imagen : Z) :
  foto = start_idx + Z.of_nat j + 1 -> view = start_idx + Z.of_nat j ->
  imagen = Z.of_nat j + 1 ->
  mostrar_celda E par foto view imagen w = (celda_de E w start_idx j par, w).
Proof.
  intros -> -> ->. unfold celda_de.
  rewrite <- (mostrar_celda_world E par (start_idx + Z.of_nat j + 1)
                (start_idx + Z.of_nat j) (Z.of_nat j + 1) w) at 3.
  apply surjective_pairing.
Qed.

(** A row that is shown holds the columns of the two items of its
    pass. *)
Lemma fila_take_drop (E : Env) (thumbnail_results : list (string * string))
    (start_idx : Z) (k : nat) (w w' : World) (row : list Celda) :
  fila E thumbnail_results start_idx (2 * Z.of_nat k) w = (Ret row, w') ->
  w' = w /\
  map Ret row = take 2 (drop (2 * k) (imap (celda_de E w start_idx) thumbnail_results)).
Proof.
  unfold fila. set (n := List.length thumbnail_results).
  set (cells := imap (celda_de E w start_idx) thumbnail_results).
  assert (Hlen : List.length cells = n) by apply length_imap.
  assert (Hcell : forall j par, thumbnail_results !! j = Some par ->
                    cells !! j = Some (celda_de E w start_idx j par)).
  { intros j par Hj. unfold cells. now rewrite list_lookup_imap, Hj. }
  replace (Z.to_nat (2 * Z.of_nat k)) with (2 * k)%nat by lia.
  replace (Z.to_nat (2 * Z.of_nat k + 1)) with (S (2 * k)) by lia.
  unfold bind, ret.
  destruct (Z.ltb_spec (2 * Z.of_nat k) (Z.of_nat n)) as [H0|H0].
  - destruct (lookup_lt_is_Some_2 thumbnail_results (2 * k)) as [par0 Hp0]; [fold n; lia|].
    rewrite Hp0. rewrite (drop_S cells _ _ (Hcell _ _ Hp0)).
    rewrite (mostrar_celda_eq E start_idx (2 * k) par0 w) by lia.
    destruct (celda_de E w start_idx (2 * k) par0) as [c0|e0]; [|discriminate].
    destruct (Z.ltb_spec (2 * Z.of_nat k + 1) (Z.of_nat n)) as [H1|H1].
    + destruct (lookup_lt_is_Some_2 thumbnail_results (S (2 * k))) as [par1 Hp1];
        [fold n; lia|].
      rewrite Hp1. rewrite (drop_S cells _ _ (Hcell _ _ Hp1)).
      rewrite (mostrar_celda_eq E start_idx (S (2 * k)) par1 w) by lia.
      destruct (celda_de E w start_idx (S (2 * k)) par1) as [c1|e1]; [|discriminate].
      intros H. inversion H; subst. split; reflexivity.
    + rewrite drop_ge by lia. intros H. inversion H; subst. split; reflexivity.
  - destruct (Z.ltb_spec (2 * Z.of_nat k + 1) (Z.of_nat n)) as [H1|H1]; [lia|].
    rewrite drop_ge by lia. intros H. inversion H; subst. split; reflexivity.
Qed.

Lemma for_each_rows {A B C : Type} (f : A -> M B) (g : nat -> A) (h : B -> C)
    (F : nat -> C) (w : World) :
  (forall k y w1, f (g k) w = (Ret y, w1) -> w1 = w /\ h y = F k) ->
  forall ks ys w',
    for_each f (map g ks) w = (Ret ys, w') ->
    w' = w /\ map h ys = map F ks.
Proof.
  intros Hf. induction ks as [|k ks IH]; intros ys w' Hrun; simpl in Hrun.
  - inversion Hrun; subst. split; reflexivity.
  - unfold bind, ret in Hrun.
    destruct (f (g k) w) as [[y|e] w1] eqn:Hk; [|discriminate].
    destruct (Hf _ _ _ Hk) as [-> Hy].
    destruct (for_each f (map g ks) w) as [[ys'|e] w2] eqn:Hks; [|discriminate].
    destruct (IH _ _ eq_refl) as [-> Hys].
    inversion Hrun; subst. split; [reflexivity|]. simpl. now rewrite Hy, Hys.
Qed.

Lemma for_each_returns {A B : Type} (f : A -> M B) (w : World) (l : list A) :
  (forall x, exists y, f x w = (Ret y, w)) ->
  exists ys, for_each f l w = (Ret ys, w).
Proof.
  intros Hf. induction l as [|x l [ys IH]]; simpl.
  - now exists [].
  - destruct (Hf x) as [y Hy]. exists (y :: ys).
    unfold bind, ret. now rewrite Hy, IH.
Qed.

(** The three things a column can come to. *)
Lemma mostrar_celda_cases (E : Env) (par : string * string) (foto view imagen : Z)
    (w : World) :
  let shown := fst (mostrar_celda E par foto view imagen w) in
  let thumbnail := fst (Image_open_path E (snd par) w) in
  let original :=
    fst ((img <- Image_open_path E (fst par) ;;
          lift (Image_thumbnail E img THUMBNAIL_SIZE)) w) in
  match thumbnail with
  | Ret _ => shown = Ret (CeldaMiniatura par foto view)
  | Raise e =>
      if is_Exception e then
        match original with
        | Ret _ => shown = Ret (CeldaOriginal par foto view)
        | Raise e' => if is_Exception e' then shown = Ret (CeldaError imagen)
                      else shown = Raise e'
        end
      else shown = Raise e
  end.
Proof.
  destruct par as [original_path thumbnail_path]. cbv zeta.
  unfold mostrar_celda, Image_open_path, try_except, bind, open_rb, lift, ret. simpl.
  repeat (break_match; simplify_eq/=); try reflexivity; congruence.
Qed.

Lemma mostrar_celda_returns (E : Env) (par : string * string) (foto view imagen : Z)
    (w : World) :
  raises_only_Exception E ->
  exists celda, mostrar_celda E par foto view imagen w = (Ret celda, w).
Proof.
  intros [Hopen Hthumb].
  pose proof (mostrar_celda_world E par foto view imagen w) as Hw.
  destruct (mostrar_celda E par foto view imagen w) as [[c|e] w'] eqn:Hrun;
    simpl in Hw; subst w'; [now exists c|exfalso].
  destruct par as [original_path thumbnail_path].
  unfold mostrar_celda, Image_open_path, try_except, bind, open_rb, lift, ret in Hrun.
  repeat (break_match; simplify_eq/=);
    repeat match goal with
           | H : Image_open _ _ = Raise _ |- _ => apply Hopen in H
           | H : Image_thumbnail _ _ _ = Raise _ |- _ => apply Hthumb in H
           end; congruence.
Qed.

Lemma fila_returns (E : Env) (thumbnail_results : list (string * string))
    (start_idx i : Z) (w : World) :
  raises_only_Exception E ->
  exists row, fila E thumbnail_results start_idx i w = (Ret row, w).
Proof.
  intros HE. unfold fila, bind, ret.
  destruct (i <? _).
  - destruct (thumbnail_results !! Z.to_nat i) as [par0|].
    + destruct (mostrar_celda_returns E par0 (start_idx + i + 1) (start_idx + i) (i + 1)
                  w HE) as [c0 ->].
      destruct (i + 1 <? _).
      * destruct (thumbnail_results !! Z.to_nat (i + 1)) as [par1|]; [|eauto].
        destruct (mostrar_celda_returns E par1 (start_idx + i + 2) (start_idx + i + 1)
                    (i + 2) w HE) as [c1 ->]. eauto.
      * eauto.
    + destruct (i + 1 <? _); [|eauto].
      destruct (thumbnail_results !! Z.to_nat (i + 1)) as [par1|]; [|eauto].
      destruct (mostrar_celda_returns E par1 (start_idx + i + 2) (start_idx + i + 1)
                  (i + 2) w HE) as [c1 ->]. eauto.
  - destruct (i + 1 <? _); [|eauto].
    destruct (thumbnail_results !! Z.to_nat (i + 1)) as [par1|]; [|eauto].
    destruct (mostrar_celda_returns E par1 (start_idx + i + 2) (start_idx + i + 1)
                (i + 2) w HE) as [c1 ->]. eauto.
Qed.

(** X18. A grid that is shown to the end changes nothing in the world,
    has at most two columns per row and, read row by row, one column per
    pair of the page, in order.  The column of a pair shows the thumbnail
    when it opens; when that raises an Exception, the original shrunk to
    the thumbnail size when that opens; and when this raises an Exception
    too, the error box and neither caption nor button.  The caption of
    the [j]-th pair (from 0) carries the number [start_idx + j + 1], the
    key of its button [start_idx + j], and the error box [j + 1].  When
    the decoder and the resizer raise nothing outside Exception, the grid
    is shown to the end. *)
Theorem grid_shows_each_pair_once (E : Env) (thumbnail_results : list (string * string))
    (start_idx : Z) (w : World) :
  (forall rows w',
     grid E thumbnail_results start_idx w = (Ret rows, w') ->
     w' = w /\
     map Ret (concat rows) = imap (celda_de E w start_idx) thumbnail_results /\
     Forall (fun row => (List.length row <= 2)%nat) rows) /\
  (forall j original_path thumbnail_path,
     thumbnail_results !! j = Some (original_path, thumbnail_path) ->
     let par := (original_path, thumbnail_path) in
     let foto := start_idx + Z.of_nat j + 1 in
     let view := start_idx + Z.of_nat j in
     match fst (Image_open_path E thumbnail_path w) with
     | Ret _ => celda_de E w start_idx j par = Ret (CeldaMiniatura par foto view)
     | Raise e =>
         if is_Exception e then
           match fst ((img <- Image_open_path E original_path ;;
                       lift (Image_thumbnail E img THUMBNAIL_SIZE)) w) with
           | Ret _ => celda_de E w start_idx j par = Ret (CeldaOriginal par foto view)
           | Raise e' =>
               if is_Exception e'
               then celda_de E w start_idx j par = Ret (CeldaError (Z.of_nat j + 1))
               else celda_de E w start_idx j par = Raise e'
           end
         else celda_de E w start_idx j par = Raise e
     end) /\
  (raises_only_Exception E ->
   exists rows, grid E thumbnail_results start_idx w = (Ret rows, w)).
Proof.
  split; [|split].
  - intros rows w' Hrun. unfold grid, py_range_by_2 in Hrun.
    set (cells := imap (celda_de E w start_idx) thumbnail_results).
    destruct (for_each_rows (fila E thumbnail_results start_idx)
                (fun k => 2 * Z.of_nat k) (map Ret)
                (fun k => take 2 (drop (2 * k) cells)) w
                (fun k y w1 => fila_take_drop E thumbnail_results start_idx k w w1 y)
                _ _ _ Hrun) as [-> Hrows].
    split; [reflexivity|]. split.
    + rewrite concat_map, Hrows. apply concat_chunks.
      unfold cells. rewrite length_imap.
      assert (H : Z.of_nat (List.length thumbnail_results) <=
                  2 * ((Z.of_nat (List.length thumbnail_results) + 1) / 2))
        by (Z.to_euclidean_division_equations; lia).
      lia.
    + apply Forall_forall. intros row Hrow.
      apply (list_elem_of_fmap_2 (map Ret)) in Hrow.
      change (fmap (map Ret) rows) with (map (map (@Ret Celda)) rows) in Hrow.
      rewrite Hrows in Hrow.
      apply list_elem_of_In, in_map_iff in Hrow as (k & Hk & _).
      apply (f_equal (@List.length _)) in Hk.
      rewrite length_take, length_map in Hk. lia.
  - intros j original_path thumbnail_path _. cbv zeta. unfold celda_de.
    apply (mostrar_celda_cases E (original_path, thumbnail_path)).
  - intros HE. unfold grid. apply for_each_returns.
    intros i. now apply fila_returns.
Qed.

Example grid_of_four :
  let thumb_a := "cache/thumbnails/5289df737df57326fcdd22597afb1fac_thumb.webp" in
  fst (grid sample_env
         [(foto_a, thumb_a); (foto_rota, foto_rota); (foto_b, "cache/thumbnails/gone.webp")]
         8 thumbnailed_world) =
    Ret [ [ CeldaMiniatura (foto_a, thumb_a) 9 8; CeldaError 2 ];
          [ CeldaOriginal (foto_b, "cache/thumbnails/gone.webp") 11 10 ] ] /\
  fst (grid sample_env [(foto_a, thumb_a); (foto_fatal, foto_fatal)] 0 thumbnailed_world) =
    Raise SystemExit.
Proof. vm_compute. split; reflexivity. Qed.

Lemma grid_shows_each_pair_once_witness :
  let thumb_a := "cache/thumbnails/5289df737df57326fcdd22597afb1fac_thumb.webp" in
  let page := [(foto_a, thumb_a); (foto_rota, foto_rota);
               (foto_b, "cache/thumbnails/gone.webp")] in
  map Ret (concat [ [ CeldaMiniatura (foto_a, thumb_a) 9 8; CeldaError 2 ];
                    [ CeldaOriginal (foto_b, "cache/thumbnails/gone.webp") 11 10 ] ]) =
  imap (celda_de sample_env thumbnailed_world 8) page.
Proof.
  cbv zeta.
  refine (proj1 (proj2 (proj1 (grid_shows_each_pair_once sample_env _ 8 thumbnailed_world)
                          _ thumbnailed_world _))).
  vm_compute. reflexivity.
Defined.

(** *** The list of galleries *)

Lemma obtener_imagenes_galeria_body_same_disk (nombre : string) (w w' : World) :
  same_disk w w' ->
  fst (obtener_imagenes_galeria_body nombre w') = fst (obtener_imagenes_galeria_body nombre w).
Proof.
  intros (Hf & Hu & Hd).
  unfold obtener_imagenes_galeria_body, bind, os_path_exists, os_listdir, ret, path_exists.
  cbn beta. rewrite Hf, Hu, Hd.
  destruct (_ || _); [|reflexivity].
  cbn beta. rewrite Hd.
  destruct (directories w !! _); reflexivity.
Qed.

Lemma same_disk_trans (w1 w2 w3 : World) :
  same_disk w1 w2 -> same_disk w2 w3 -> same_disk w1 w3.
Proof. intros (?&?&?) (?&?&?). repeat split; congruence. Qed.

(** One call of the lister inside the loop. *)
Lemma obtener_imagenes_galeria_step (nombre : string) (w : World) (archivos : list string) :
  gallery_cache_fresh w ->
  directories w !! ("imagenes/Galerias/" +:+ nombre) = Some archivos ->
  NoDup archivos ->
  (forall a, a ∈ archivos -> contains_char "/" a = false) ->
  exists imagenes w',
    obtener_imagenes_galeria nombre w = (Ret imagenes, w') /\
    List.length imagenes = List.length (List.filter es_imagen archivos) /\
    same_disk w w' /\ gallery_cache_fresh w'.
Proof.
  intros Hfresh Hdir Hnodup Hnames.
  destruct (obtener_imagenes_galeria_members nombre w archivos (Hfresh nombre) Hdir)
    as (imagenes & Hcall & Hnd & Hmem).
  pose proof (obtener_imagenes_galeria_members_count nombre archivos imagenes
                Hnodup Hnames Hnd Hmem) as Hcount.
  unfold obtener_imagenes_galeria in *.
  destruct (cache_data_cases 1800 gallery_cache set_gallery_cache
              obtener_imagenes_galeria_body nombre w)
    as [(v & t & Hl & Hlive & Heq)|[(v & w0 & Hb & Heq)|(e & w0 & Hb & Heq)]];
    rewrite Heq in Hcall; simpl in Hcall; inversion Hcall; subst.
  - exists imagenes, w. repeat split; assumption.
  - pose proof (obtener_imagenes_galeria_body_world nombre w) as Hw.
    rewrite Hb in Hw. simpl in Hw. subst w0.
    eexists _, _. split; [exact Heq|]. split; [exact Hcount|]. split; [repeat split|].
    intros otro v c. simpl. rewrite lookup_insert.
    rewrite (obtener_imagenes_galeria_body_same_disk otro w _) by (repeat split).
    destruct (decide (nombre = otro)) as [->|Hne].
    + intros Hv _. inversion Hv; subst. now rewrite Hb.
    + intros Hv Hlive. now apply (Hfresh otro v c).
Qed.

Lemma os_path_join_galerias (d : string) :
  contains_char "/" d = false ->
  os_path_join "imagenes/Galerias" d = "imagenes/Galerias/" +:+ d.
Proof.
  intros Hd. unfold os_path_join. now rewrite (startswith_slash_contains d Hd).
Qed.

Lemma boton_de_same_disk (w w' : World) (d : string) :
  same_disk w w' -> boton_de w' d = boton_de w d.
Proof. intros (_ & _ & Hd). unfold boton_de. now rewrite Hd. Qed.

Lemma omap_boton_de_same_disk (w w' : World) (l : list string) :
  same_disk w w' -> omap (boton_de w') l = omap (boton_de w) l.
Proof.
  intros Hdisk. induction l as [|d l IH]; [reflexivity|].
  cbn [omap list_omap]. now rewrite (boton_de_same_disk w w' d Hdisk), IH.
Qed.

Lemma botones_de_galerias_eq (directorios : list string) :
  forall (botones : list (string * Z)) (w : World),
    gallery_cache_fresh w ->
    listados_bien_formados w ->
    (forall d, d ∈ directorios -> contains_char "/" d = false) ->
    exists w',
      botones_de_galerias "imagenes/Galerias" directorios botones w =
        (Ret (botones ++ omap (boton_de w) directorios)%list, w') /\
      same_disk w w'.
Proof.
  induction directorios as [|d rest IH]; intros botones w Hfresh Hwf Hnames.
  - exists w. simpl. rewrite app_nil_r. repeat split.
  - assert (Hd : contains_char "/" d = false) by (apply Hnames; left).
    assert (Hrest : forall d', d' ∈ rest -> contains_char "/" d' = false)
      by (intros d' Hin; apply Hnames; now right).
    cbn [botones_de_galerias omap list_omap]. unfold bind at 1, os_path_isdir.
    rewrite (os_path_join_galerias d Hd).
    unfold boton_de at 1.
    destruct (directories w !! ("imagenes/Galerias/" +:+ d)) as [archivos|] eqn:Hdir.
    + rewrite bool_decide_eq_true_2 by eauto.
      destruct (Hwf _ _ Hdir) as [Hnodup Harch].
      destruct (obtener_imagenes_galeria_step d w archivos Hfresh Hdir Hnodup Harch)
        as (imagenes & w1 & Hcall & Hcount & Hdisk & Hfresh1).
      unfold bind at 1. rewrite Hcall, Hcount.
      assert (Hwf1 : listados_bien_formados w1).
      { intros d' a'. destruct Hdisk as (_ & _ & ->). apply Hwf. }
      destruct (Z.of_nat (List.length (List.filter es_imagen archivos)) >? 0).
      * destruct (IH (botones ++ [(d, Z.of_nat (List.length (List.filter es_imagen archivos)))])%list
                     w1 Hfresh1 Hwf1 Hrest) as (w' & Heq & Hdisk').
        exists w'. rewrite Heq. split; [|eapply same_disk_trans; eassumption].
        rewrite <- app_assoc. simpl.
        now rewrite (omap_boton_de_same_disk w w1 rest Hdisk).
      * destruct (IH botones w1 Hfresh1 Hwf1 Hrest) as (w' & Heq & Hdisk').
        exists w'. rewrite Heq. split; [|eapply same_disk_trans; eassumption].
        now rewrite (omap_boton_de_same_disk w w1 rest Hdisk).
    + rewrite bool_decide_eq_false_2 by (intros [? ?]; congruence).
      apply IH; assumption.
Qed.

(** X19. When the galleries folder is missing the section shows the
    warning and no button.  Otherwise, with listings as [os.listdir]
    gives them and a memo table that agrees with the directories, the
    section shows, in the order of the folder's listing, one button for
    each entry that is a directory with at least one image-named entry,
    labelled with the number of those entries; plain files and
    directories without images get none, and nothing is raised. *)
Theorem seccion_galerias_buttons (w : World) :
  (path_exists w "imagenes/Galerias" = false ->
   fst (seccion_galerias w) = Ret None) /\
  (forall directorios,
     directories w !! "imagenes/Galerias" = Some directorios ->
     gallery_cache_fresh w ->
     listados_bien_formados w ->
     fst (seccion_galerias w) = Ret (Some (omap (boton_de w) directorios))).
Proof.
  split.
  - intros Hex. unfold seccion_galerias, bind, os_path_exists. now rewrite Hex.
  - intros directorios Hdir Hfresh Hwf.
    unfold seccion_galerias, bind, os_path_exists, os_listdir.
    assert (Hex : path_exists w "imagenes/Galerias" = true).
    { unfold path_exists. rewrite (bool_decide_eq_true_2 (is_Some (directories w !! _)));
        [apply orb_true_r|eauto]. }
    rewrite Hex, Hdir.
    destruct (botones_de_galerias_eq directorios [] w Hfresh Hwf) as (w' & Heq & _).
    { apply Hwf in Hdir. apply Hdir. }
    now rewrite Heq.
Qed.

Lemma seccion_galerias_buttons_witness :
  fst (seccion_galerias portfolio_world) = Ret (Some [("boda", 7)]).
Proof.
  rewrite (proj2 (seccion_galerias_buttons portfolio_world) ["boda"; "vacia"; "LEEME.txt"]).
  - vm_compute. reflexivity.
  - vm_compute. reflexivity.
  - intros nombre v c Hl. vm_compute in Hl. discriminate.
  - intros d archivos Hd. unfold portfolio_world in Hd. cbn [directories] in Hd.
    apply lookup_insert_Some in Hd as [[_ <-]|[_ Hd]];
      [|apply lookup_insert_Some in Hd as [[_ <-]|[_ Hd]];
        [|apply lookup_singleton_Some in Hd as [_ <-]]];
      (split; [apply (bool_decide_unpack _); vm_compute; exact I|]);
      intros a Ha;
      repeat (apply elem_of_cons in Ha as [->|Ha]; [reflexivity|]);
      now apply elem_of_nil in Ha.
Defined.
